(** * python-abp: the filter list line parser ([abp/filters/parser.py])

    A shallow embedding of the parser and of the parts of the Python runtime
    it relies on (string methods, the backtracking regular expression
    matcher, exceptions, generators), followed by the properties of the
    parser that were checked against it.

    Strings are [string]s whose characters stand for the code points below
    256; the character classes are the ones Python 3 uses for [str] on that
    range. *)

From Stdlib Require Import Ascii String NArith Bool Lia.
From stdpp Require Import base strings list gmap.

Local Open Scope N_scope.
Local Open Scope nat_scope.

(** ** Python's [str] *)

Module PyStr.

Definition ord (c : ascii) : N := N_of_ascii c.

Definition in_range (lo hi : N) (c : ascii) : bool :=
  (lo <=? ord c)%N && (ord c <=? hi)%N.

Definition tab : ascii := ascii_of_N 9.
Definition newline : ascii := ascii_of_N 10.
Definition dquote : ascii := ascii_of_N 34.

(** [str.isspace] for one character, also the class [\s]. *)
Definition isspace (c : ascii) : bool :=
  in_range 9 13 c || in_range 28 32 c
  || (ord c =? 133)%N || (ord c =? 160)%N.

(** The class [\d]: decimal digits. *)
Definition isdecimal (c : ascii) : bool := in_range 48 57 c.

(** Alphanumeric code points: the letters and digits of ASCII and the
    letters, superscript digits and fractions of Latin-1. *)
Definition isalnum (c : ascii) : bool :=
  in_range 48 57 c || in_range 65 90 c || in_range 97 122 c
  || (ord c =? 170)%N || in_range 178 179 c || (ord c =? 181)%N
  || in_range 185 186 c || in_range 188 190 c
  || in_range 192 214 c || in_range 216 246 c || in_range 248 255 c.

(** The class [\w]. *)
Definition isword (c : ascii) : bool := isalnum c || (ord c =? 95)%N.

(** [c.lower()] for the purpose of case-insensitive matching of an ASCII
    letter of a pattern. *)
Definition lower (c : ascii) : ascii :=
  if in_range 65 90 c then ascii_of_N (ord c + 32) else c.

Definition truthy (s : string) : bool :=
  match s with EmptyString => false | String _ _ => true end.

Fixpoint lstrip (s : string) : string :=
  match s with
  | EmptyString => EmptyString
  | String c s' => if isspace c then lstrip s' else s
  end.

Fixpoint rstrip (s : string) : string :=
  match s with
  | EmptyString => EmptyString
  | String c s' =>
      match rstrip s' with
      | EmptyString => if isspace c then EmptyString else String c EmptyString
      | t => String c t
      end
  end.

(** [s.strip()] *)
Definition strip (s : string) : string := rstrip (lstrip s).

(** [s.startswith(p)] *)
Definition startswith (p s : string) : bool := String.prefix p s.

(** [s.endswith(p)] *)
Fixpoint endswith (p s : string) : bool :=
  if String.eqb p s then true
  else match s with
       | EmptyString => false
       | String _ s' => endswith p s'
       end.

(** [c in s] for a one-character string [c]. *)
Fixpoint contains (c : ascii) (s : string) : bool :=
  match s with
  | EmptyString => false
  | String a s' => Ascii.eqb a c || contains c s'
  end.

(** [s.split(sep)] for a one-character separator. *)
Fixpoint split (sep : ascii) (s : string) : list string :=
  match s with
  | EmptyString => [EmptyString]
  | String a s' =>
      if Ascii.eqb a sep then EmptyString :: split sep s'
      else match split sep s' with
           | h :: t => String a h :: t
           | [] => [String a EmptyString]
           end
  end.

(** [s.split(sep, 1)] when [sep in s]: the text before the first
    separator and the text after it. *)
Fixpoint split1 (sep : ascii) (s : string) : string * string :=
  match s with
  | EmptyString => (EmptyString, EmptyString)
  | String a s' =>
      if Ascii.eqb a sep then (EmptyString, s')
      else let '(h, t) := split1 sep s' in (String a h, t)
  end.

(** [s.replace(c, '')] for a one-character string [c]. *)
Fixpoint remove (c : ascii) (s : string) : string :=
  match s with
  | EmptyString => EmptyString
  | String a s' =>
      if Ascii.eqb a c then remove c s' else String a (remove c s')
  end.

(** [s[n:]] *)
Fixpoint slice_from (n : nat) (s : string) : string :=
  match n, s with
  | S n', String _ s' => slice_from n' s'
  | _, _ => s
  end.

(** [s[:n]] *)
Fixpoint slice_to (n : nat) (s : string) : string :=
  match n, s with
  | S n', String a s' => String a (slice_to n' s')
  | _, _ => EmptyString
  end.

(** [''.join(l)] *)
Definition join (l : list string) : string := String.concat "" l.

(** Every character of [s] is in the class [p]. *)
Fixpoint all_chars (p : ascii -> bool) (s : string) : bool :=
  match s with
  | EmptyString => true
  | String a s' => p a && all_chars p s'
  end.

(** The text with every whitespace character taken out. *)
Fixpoint remove_whitespace (s : string) : string :=
  match s with
  | EmptyString => EmptyString
  | String a s' =>
      if isspace a then remove_whitespace s'
      else String a (remove_whitespace s')
  end.

End PyStr.

(** ** Python's [re]: a backtracking matcher *)

Module Re.
Import PyStr.

Inductive regex : Type :=
| Eps
| Chr (c : ascii)
| Dot
| Class (p : ascii -> bool)
| Cat (r1 r2 : regex)
| Alt (r1 r2 : regex)
| Star (greedy : bool) (r : regex)
| Group (n : nat) (r : regex)
| Bol
| Eol.

(** [r+] and [r+?] *)
Definition Plus (greedy : bool) (r : regex) : regex :=
  Cat r (Star greedy r).

(** [r?] *)
Definition Opt (r : regex) : regex := Alt r Eps.

(** A literal word of the pattern. *)
Fixpoint Lit (s : string) : regex :=
  match s with
  | EmptyString => Eps
  | String c s' => Cat (Chr c) (Lit s')
  end.

(** [[^...]] *)
Definition negate (p : ascii -> bool) : ascii -> bool :=
  fun c => negb (p c).

(** A class given by the list of its characters. *)
Definition one_of (s : string) : ascii -> bool :=
  fun c => contains c s.

Definition union (p q : ascii -> bool) : ascii -> bool :=
  fun c => p c || q c.

(** The position of the matcher, the text still to read there and the
    groups captured so far. *)
Record mstate : Type := MState {
  pos : nat;
  rest : string;
  caps : gmap nat string
}.

Definition advance (st : mstate) (s' : string) : mstate :=
  {| pos := S (pos st); rest := s'; caps := caps st |}.

(** The text read between two states of one run. *)
Definition consumed (st st' : mstate) : string :=
  slice_to (String.length (rest st) - String.length (rest st')) (rest st).

Definition capture (n : nat) (st st' : mstate) : mstate :=
  {| pos := pos st'; rest := rest st';
     caps := <[n := consumed st st']> (caps st') |}.

Definition chr_eq (icase : bool) (c a : ascii) : bool :=
  if icase then Ascii.eqb (lower c) (lower a) else Ascii.eqb c a.

Definition orelse {A} (x y : option A) : option A :=
  match x with Some _ => x | None => y end.

(** The loop of [r*] and [r*?]: [body] matches [r] once. A turn that
    reads nothing is not repeated; [fuel] bounds the turns by the length
    of the text. *)
Fixpoint star_loop
    (body : mstate -> (mstate -> option mstate) -> option mstate)
    (greedy : bool) (k : mstate -> option mstate) (fuel : nat)
    (st : mstate) {struct fuel} : option mstate :=
  match fuel with
  | O => k st
  | S fuel' =>
      let again :=
        body st (fun st1 =>
          if String.length (rest st1) <? String.length (rest st)
          then star_loop body greedy k fuel' st1 else None) in
      if greedy then orelse again (k st) else orelse (k st) again
  end.

(** [rmatch icase r st k]: the first way, in the order Python tries them,
    to match [r] at [st] such that the continuation [k] succeeds.
    [icase] is the flag [re.I]. *)
Fixpoint rmatch (icase : bool) (r : regex) (st : mstate)
    (k : mstate -> option mstate) {struct r} : option mstate :=
  match r with
  | Eps => k st
  | Chr c =>
      match rest st with
      | String a s' => if chr_eq icase c a then k (advance st s') else None
      | EmptyString => None
      end
  | Dot =>
      match rest st with
      | String a s' =>
          if Ascii.eqb a newline then None else k (advance st s')
      | EmptyString => None
      end
  | Class p =>
      match rest st with
      | String a s' => if p a then k (advance st s') else None
      | EmptyString => None
      end
  | Cat r1 r2 => rmatch icase r1 st (fun st1 => rmatch icase r2 st1 k)
  | Alt r1 r2 => orelse (rmatch icase r1 st k) (rmatch icase r2 st k)
  | Star greedy r1 =>
      star_loop (rmatch icase r1) greedy k (S (String.length (rest st))) st
  | Group n r1 => rmatch icase r1 st (fun st1 => k (capture n st st1))
  | Bol => if pos st =? 0 then k st else None
  | Eol =>
      match rest st with
      | EmptyString => k st
      | String a EmptyString => if Ascii.eqb a newline then k st else None
      | _ => None
      end
  end.

(** A match object: [start(0)], [end(0)] and the groups. *)
Record match_obj : Type := MatchObj {
  m_start : nat;
  m_end : nat;
  m_groups : gmap nat string
}.

(** [m.group(n)], [None] for a group that took no part in the match. *)
Definition group (m : match_obj) (n : nat) : option string :=
  m_groups m !! n.

Definition match_at (icase : bool) (r : regex) (p : nat) (s : string)
    : option match_obj :=
  match rmatch icase r {| pos := p; rest := s; caps := ∅ |} Some with
  | Some st => Some {| m_start := p; m_end := pos st; m_groups := caps st |}
  | None => None
  end.

(** [r.match(s)] *)
Definition re_match (icase : bool) (r : regex) (s : string)
    : option match_obj :=
  match_at icase r 0 s.

Fixpoint search_from (icase : bool) (r : regex) (p : nat) (s : string)
    : option match_obj :=
  match match_at icase r p s with
  | Some m => Some m
  | None =>
      match s with
      | EmptyString => None
      | String _ s' => search_from icase r (S p) s'
      end
  end.

(** [r.search(s)] *)
Definition re_search (icase : bool) (r : regex) (s : string)
    : option match_obj :=
  search_from icase r 0 s.

(** [r.finditer(s)], for a pattern that matches no empty text: the
    matches from left to right, each search starting where the previous
    match ended. [skip] counts the characters of the previous match that
    are still to be passed. *)
Fixpoint finditer_from (icase : bool) (r : regex) (p skip : nat)
    (s : string) : list match_obj :=
  match skip with
  | S skip' =>
      match s with
      | EmptyString => []
      | String _ s' => finditer_from icase r (S p) skip' s'
      end
  | O =>
      match match_at icase r p s with
      | Some m =>
          m :: match s with
               | EmptyString => []
               | String _ s' =>
                   finditer_from icase r (S p) (m_end m - p - 1) s'
               end
      | None =>
          match s with
          | EmptyString => []
          | String _ s' => finditer_from icase r (S p) 0 s'
          end
      end
  end.

Definition finditer (icase : bool) (r : regex) (s : string)
    : list match_obj :=
  finditer_from icase r 0 0 s.

(** *** What a match is

    [matches icase r st st']: reading [r] from [st] can end in [st'].
    The matcher above finds the first such [st'] that its continuation
    accepts. *)
Inductive matches (icase : bool) : regex -> mstate -> mstate -> Prop :=
| M_Eps st : matches icase Eps st st
| M_Chr c a s' st :
    rest st = String a s' -> chr_eq icase c a = true ->
    matches icase (Chr c) st (advance st s')
| M_Dot a s' st :
    rest st = String a s' -> Ascii.eqb a newline = false ->
    matches icase Dot st (advance st s')
| M_Class p a s' st :
    rest st = String a s' -> p a = true ->
    matches icase (Class p) st (advance st s')
| M_Cat r1 r2 st st1 st2 :
    matches icase r1 st st1 -> matches icase r2 st1 st2 ->
    matches icase (Cat r1 r2) st st2
| M_Alt_l r1 r2 st st' :
    matches icase r1 st st' -> matches icase (Alt r1 r2) st st'
| M_Alt_r r1 r2 st st' :
    matches icase r2 st st' -> matches icase (Alt r1 r2) st st'
| M_Star_done g r st : matches icase (Star g r) st st
| M_Star_more g r st st1 st2 :
    matches icase r st st1 -> matches icase (Star g r) st1 st2 ->
    matches icase (Star g r) st st2
| M_Group n r st st1 :
    matches icase r st st1 ->
    matches icase (Group n r) st (capture n st st1)
| M_Bol st : pos st = 0 -> matches icase Bol st st
| M_Eol st :
    rest st = EmptyString \/ rest st = String newline EmptyString ->
    matches icase Eol st st.

(** Group [n] is set by every match of [r]. *)
Fixpoint sets (n : nat) (r : regex) : bool :=
  match r with
  | Cat r1 r2 => sets n r1 || sets n r2
  | Alt r1 r2 => sets n r1 && sets n r2
  | Group m r1 => (n =? m) || sets n r1
  | _ => false
  end.

(** Every match of [r] reads at least one character. *)
Fixpoint nonnull (r : regex) : bool :=
  match r with
  | Chr _ | Dot | Class _ => true
  | Cat r1 r2 => nonnull r1 || nonnull r2
  | Alt r1 r2 => nonnull r1 && nonnull r2
  | Group _ r1 => nonnull r1
  | _ => false
  end.

(** Wherever group [n] occurs in [r], it cannot capture the empty
    text. *)
Fixpoint group_nonnull (n : nat) (r : regex) : bool :=
  match r with
  | Cat r1 r2 | Alt r1 r2 => group_nonnull n r1 && group_nonnull n r2
  | Star _ r1 => group_nonnull n r1
  | Group m r1 => (negb (n =? m) || nonnull r1) && group_nonnull n r1
  | _ => true
  end.

(** No group occurs in [r]. *)
Fixpoint groupless (r : regex) : bool :=
  match r with
  | Cat r1 r2 | Alt r1 r2 => groupless r1 && groupless r2
  | Star _ r1 => groupless r1
  | Group _ _ => false
  | _ => true
  end.

End Re.

(** ** Exceptions *)

(** [ParseError(error, text)] with its two attributes, and the built-in
    exceptions that the parser can run into. *)
Record parse_error : Type := ParseError {
  error : string;
  text : string
}.

Inductive exn : Type :=
| EParse (e : parse_error)
| AssertionError
| AttributeError
| TypeError.

Inductive result (A : Type) : Type :=
| Ok (a : A)
| Raise (e : exn).
Arguments Ok {A} a.
Arguments Raise {A} e.

Definition bind {A B} (x : result A) (f : A -> result B) : result B :=
  match x with
  | Ok a => f a
  | Raise e => Raise e
  end.

Notation "'do' x <- e1 ; e2" := (bind e1 (fun x => e2))
  (at level 10, x name, e1 at level 100, e2 at level 200).

(** Reading a value that must be a [str]: a method call on [None] raises
    [AttributeError]. *)
Definition attr_of {A} (o : option A) : result A :=
  match o with
  | Some a => Ok a
  | None => Raise AttributeError
  end.

(** Reading a group whose text becomes a field of a record. The patterns
    set these groups in every match (see [parse_groups_set] below), so
    the case [None] does not come up. *)
Definition field_of (o : option string) : result string :=
  match o with
  | Some s => Ok s
  | None => Raise TypeError
  end.

(** ** Line types *)

(** The value of one filter option: [True]/[False], a string, or the list
    that [str.split] returns. *)
Inductive option_value : Type :=
| VBool (b : bool)
| VStr (s : string)
| VList (l : list string).

Inductive line : Type :=
| Header (version : string)
| EmptyLine
| Comment (text : string)
| Metadata (key value : string)
| Include (target : string)
| BlockingFilter (expression : string) (is_exception : bool)
    (options : gmap string option_value) (pattern : string)
| HidingFilter (expression : string) (is_exception : bool)
    (selector : string) (domains : list string).

(** The format strings given to [_line_type]. *)
Definition to_string (l : line) : string :=
  match l with
  | Header version => "[" +:+ version +:+ "]"
  | EmptyLine => ""
  | Comment text => "! " +:+ text
  | Metadata key value => "! " +:+ key +:+ ": " +:+ value
  | Include target => "%include " +:+ target +:+ "%"
  | BlockingFilter expression _ _ _ => expression
  | HidingFilter expression _ _ _ => expression
  end.

(** [l.type == 'filter']: the two filter types are defined with
    [type='filter']. *)
Definition is_filter (l : line) : bool :=
  match l with
  | BlockingFilter _ _ _ _ | HidingFilter _ _ _ _ => true
  | _ => false
  end.

(** [l.expression], a field of the two filter types only. *)
Definition expression_of (l : line) : option string :=
  match l with
  | BlockingFilter expression _ _ _ => Some expression
  | HidingFilter expression _ _ _ => Some expression
  | _ => None
  end.

(** ** The patterns *)

Module Patterns.
Import PyStr Re.

Infix "·" := Cat (at level 41, right associativity).

Definition ws : ascii -> bool := isspace.
Definition word : ascii -> bool := isword.

(** [[\w\-]] *)
Definition word_dash : ascii -> bool := union isword (one_of "-").

(** [! \s* (\w+) \s* : \s* ( .* )] (the patterns are spelled with
    blanks between their parts, and [\x22] for the double quote) *)
Definition METADATA_REGEXP : regex :=
  Chr "!" · Star true (Class ws) · Group 1 (Plus true (Class word))
  · Star true (Class ws) · Chr ":" · Star true (Class ws)
  · Group 2 (Star true Dot).

Definition METADATA_KEYS : list string :=
  ["Homepage"; "Title"; "Expires"; "Checksum"; "Redirect"; "Version"].

(** [%include \s+ (.+) %] *)
Definition INCLUDE_REGEXP : regex :=
  Lit "%include" · Plus true (Class ws) · Group 1 (Plus true Dot)
  · Chr "%".

(** [\[ ( Adblock (?: \s* Plus \s* [\d\.]+? )? ) \]], compiled with
    [re.I] *)
Definition HEADER_REGEXP : regex :=
  Chr "["
  · Group 1
      (Lit "Adblock"
       · Opt (Star true (Class ws) · Lit "Plus" · Star true (Class ws)
              · Plus false (Class (union isdecimal (one_of ".")))))
  · Chr "]".

(** One option: [~? [\w\-]+ (?: = [^,\s]+ )?] *)
Definition option_token : regex :=
  Opt (Chr "~") · Plus true (Class word_dash)
  · Opt (Chr "=" · Plus true (Class (negate (union (one_of ",") ws)))).

(** [\$ ( option (?: , option )* ) $] *)
Definition BFILTER_OPTIONS_REGEXP : regex :=
  Chr "$"
  · Group 1 (option_token · Star true (Chr "," · option_token))
  · Eol.

(** [[^\(\)\x22]] *)
Definition attr_value_char : ascii -> bool :=
  negate (fun c => one_of "()" c || Ascii.eqb c dquote).

(** [[^\/\*\|\@\x22!]] *)
Definition domain_char : ascii -> bool :=
  negate (fun c => one_of "/*|@!" c || Ascii.eqb c dquote).

(** One attribute rule, without groups:
    [\( [\w\-]+ (?: [$^*]? = [^\(\)\x22]* )? \)] *)
Definition attr_rule : regex :=
  Chr "(" · Plus true (Class word_dash)
  · Opt (Opt (Class (one_of "$^*")) · Chr "="
         · Star true (Class attr_value_char))
  · Chr ")".

(** [^ ( [^\/\*\|\@\x22!]*? ) # (\@)?
     (?: ( [\w\-]+ | \* ) ( (?: rule )* ) | # ( [^{}]+ ) ) $] *)
Definition HFILTER_REGEXP : regex :=
  Bol
  · Group 1 (Star false (Class domain_char))
  · Chr "#"
  · Opt (Group 2 (Chr "@"))
  · Alt (Group 3 (Alt (Plus true (Class word_dash)) (Chr "*"))
         · Group 4 (Star true attr_rule))
        (Chr "#" · Group 5 (Plus true (Class (negate (one_of "{}")))))
  · Eol.

(** [\( ( [\w\-]+ ) (?: ( [$^*]? = ) ( [^\(\)\x22]* ) )? \)] *)
Definition OLD_ATTRS_REGEXP : regex :=
  Chr "("
  · Group 1 (Plus true (Class word_dash))
  · Opt (Group 2 (Opt (Class (one_of "$^*")) · Chr "=")
         · Group 3 (Star true (Class attr_value_char)))
  · Chr ")".

End Patterns.

(** ** The parser *)

Import PyStr Re Patterns.

Definition _parse_comment (text : string) : result line :=
  let plain := Ok (Comment (strip (slice_from 1 text))) in
  match re_match false METADATA_REGEXP text with
  | Some m =>
      match group m 1 with
      | Some key =>
          if bool_decide (key ∈ METADATA_KEYS)
          then do value <- field_of (group m 2); Ok (Metadata key value)
          else plain
      | None => plain
      end
  | None => plain
  end.

Definition _parse_header (text : string) : result line :=
  match re_match true HEADER_REGEXP text with
  | None => Raise (EParse (ParseError "Malformed header" text))
  | Some m => do version <- field_of (group m 1); Ok (Header version)
  end.

Definition _parse_instruction (text : string) : result line :=
  match re_match false INCLUDE_REGEXP text with
  | None => Raise (EParse (ParseError "Unrecognized instruction" text))
  | Some m => do target <- field_of (group m 1); Ok (Include target)
  end.

(** [str(x)] as [str.format] prints a group: the text, or [None]. *)
Definition fmt (o : option string) : string := default "None" o.

(** Truth value of a group: [None] and the empty text are false. *)
Definition group_truthy (o : option string) : bool :=
  match o with
  | Some s => truthy s
  | None => false
  end.

(** The attribute constraint [[name op "value"]] of one match. *)
Definition constraint_of (m : match_obj) : string :=
  "[" +:+ fmt (group m 1) +:+ fmt (group m 2) +:+ String dquote ""
  +:+ fmt (group m 3) +:+ String dquote "" +:+ "]".

(** The loop over [OLD_ATTRS_REGEXP.finditer(attr_rules)]: the state is
    [constraints_list] and [class_or_id]. *)
Fixpoint attr_rules_loop (text : string) (ms : list match_obj)
    (constraints_list : list string) (class_or_id : option string)
    : result (list string * option string) :=
  match ms with
  | [] => Ok (constraints_list, class_or_id)
  | m :: ms' =>
      if group_truthy (group m 2) then
        attr_rules_loop text ms'
          (constraints_list ++ [constraint_of m]) class_or_id
      else
        match class_or_id with
        | None => attr_rules_loop text ms' constraints_list (group m 1)
        | Some _ =>
            Raise (EParse (ParseError text "Duplicate id in attriute rules"))
        end
  end.

Definition _tag_and_rules_to_selector (text : string) (tag : option string)
    (attr_rules : option string) : result string :=
  let tag := if bool_decide (tag = Some "*") then Some "" else tag in
  match attr_rules with
  | None => Raise TypeError
  | Some attr_rules =>
      do st <- attr_rules_loop text (finditer false OLD_ATTRS_REGEXP attr_rules)
                 [] None;
      let '(constraints_list, class_or_id) := st in
      let constraints := join constraints_list in
      if group_truthy class_or_id then
        Ok (fmt tag +:+ "." +:+ fmt class_or_id +:+ constraints +:+ ","
            +:+ fmt tag +:+ "#" +:+ fmt class_or_id +:+ constraints)
      else if group_truthy tag || truthy constraints then
        match tag with
        | Some tag => Ok (tag +:+ constraints)
        | None => Raise TypeError
        end
      else Raise (EParse (ParseError text "Filter matches everything"))
  end.

Definition _parse_hiding_filter (text : string) (m : match_obj)
    : result line :=
  do domain_list <- attr_of (group m 1);
  let domains := filter (fun d => truthy d = true) (split "," domain_list) in
  let is_exception := group_truthy (group m 2) in
  do selector <-
    (match group m 5 with
     | Some (String c s) => Ok (String c s)
     | _ => _tag_and_rules_to_selector text (group m 3) (group m 4)
     end);
  Ok (HidingFilter text is_exception selector domains).

(** One turn of the loop of [_parse_filter_options]. *)
Definition parse_option (option : string) : result (string * option_value) :=
  let '(name, value) :=
    if contains "=" option then
      let '(name, value) := split1 "=" option in (name, VStr value)
    else if startswith "~" option then (slice_from 1 option, VBool false)
    else (option, VBool true) in
  if bool_decide (name ∈ ["domain"; "sitekey"]) then
    match value with
    | VStr v => Ok (name, VList (split "|" v))
    | _ => Raise AttributeError
    end
  else Ok (name, value).

Fixpoint parse_options_loop (options : list string)
    (parsed_options : gmap string option_value)
    : result (gmap string option_value) :=
  match options with
  | [] => Ok parsed_options
  | option :: options' =>
      do nv <- parse_option option;
      parse_options_loop options' (<[nv.1 := nv.2]> parsed_options)
  end.

Definition _parse_filter_options (text options : string)
    : result (gmap string option_value) :=
  parse_options_loop (split "," options) ∅.

Definition _parse_blocking_filter (text : string) : result line :=
  let expression := text in
  let is_exception := startswith "@@" text in
  let text := if is_exception then slice_from 2 text else text in
  let opt_match :=
    if contains "$" text then re_search false BFILTER_OPTIONS_REGEXP text
    else None in
  match opt_match with
  | Some m =>
      let pattern := slice_to (m_start m) text in
      do options <- attr_of (group m 1);
      do parsed <- _parse_filter_options text options;
      Ok (BlockingFilter expression is_exception parsed pattern)
  | None => Ok (BlockingFilter expression is_exception ∅ text)
  end.

Definition _parse_filter (text : string) : result line :=
  match (if contains "#" text then re_match false HFILTER_REGEXP text
         else None) with
  | Some m => _parse_hiding_filter text m
  | None => _parse_blocking_filter text
  end.

Definition parse_line (line_text : string) : result line :=
  let content := strip line_text in
  do line <-
    (if bool_decide (content = "") then Ok EmptyLine
     else if startswith "!" content then _parse_comment content
     else if startswith "%" content && endswith "%" content
       then _parse_instruction content
     else if startswith "[" content && endswith "]" content
       then _parse_header content
     else _parse_filter content);
  if bool_decide (remove " " (to_string line) = remove " " content)
  then Ok line
  else Raise AssertionError.

(** ** The generator [parse_filterlist] *)

(** A generator object is either suspended, with the lines that its [for]
    loop has not taken yet, or finished: it has returned or an exception
    has left its frame. *)
Inductive generator : Type :=
| Suspended (lines : list string)
| Finished.

Inductive outcome : Type :=
| Yield (l : line)
| Raised (e : exn)
| StopIteration.

Definition parse_filterlist (lines : list string) : generator :=
  Suspended lines.

(** [next(g)]: what the caller gets and the generator afterwards. *)
Definition next (g : generator) : outcome * generator :=
  match g with
  | Finished => (StopIteration, Finished)
  | Suspended [] => (StopIteration, Finished)
  | Suspended (l :: lines) =>
      match parse_line l with
      | Ok r => (Yield r, Suspended lines)
      | Raise e => (Raised e, Finished)
      end
  end.

(** [n] calls of [next] in a row: the outcomes in order and the generator
    that is left. *)
Fixpoint next_n (n : nat) (g : generator) : list outcome * generator :=
  match n with
  | O => ([], g)
  | S n' =>
      let '(o, g') := next g in
      let '(os, g'') := next_n n' g' in
      (o :: os, g'')
  end.

(** * Properties *)

Local Arguments Ascii.eqb : simpl never.
Local Arguments isspace : simpl never.

(** ** The test suite ([tests/test_parser.py]) on the model *)

Section TestSuite.

Example test_parse_empty : parse_line "    " = Ok EmptyLine.
Proof. vm_compute. reflexivity. Qed.

Example test_parse_filter :
  parse_line "||example.com/banner.gif"
  = Ok (BlockingFilter "||example.com/banner.gif" false ∅
          "||example.com/banner.gif").
Proof. vm_compute. reflexivity. Qed.

Example test_parse_bfilter :
  parse_line
    "||example.com/banner.gif$image,~match-case,domain=abc.com|def.org"
  = Ok (BlockingFilter
          "||example.com/banner.gif$image,~match-case,domain=abc.com|def.org"
          false
          (<["image" := VBool true]>
             (<["match-case" := VBool false]>
                (<["domain" := VList ["abc.com"; "def.org"]]> ∅)))
          "||example.com/banner.gif").
Proof. vm_compute. reflexivity. Qed.

Example test_parse_bfilter_exc :
  parse_line "@@||example.com/good.gif"
  = Ok (BlockingFilter "@@||example.com/good.gif" true ∅
          "||example.com/good.gif").
Proof. vm_compute. reflexivity. Qed.

Example test_parse_hfilter :
  parse_line "abc.com,cdf.com##div#ad1"
  = Ok (HidingFilter "abc.com,cdf.com##div#ad1" false "div#ad1"
          ["abc.com"; "cdf.com"]).
Proof. vm_compute. reflexivity. Qed.

Example test_parse_hfilter_exc :
  parse_line "#@#div#ad1" = Ok (HidingFilter "#@#div#ad1" true "div#ad1" []).
Proof. vm_compute. reflexivity. Qed.

Example test_parse_hfilter_old_2id :
  exists e, parse_line "abc.com#div(foo)(bar)" = Raise (EParse e).
Proof. eexists. vm_compute. reflexivity. Qed.

Example test_parse_hfilter_empty :
  exists e, parse_line "abc.com#*" = Raise (EParse e).
Proof. eexists. vm_compute. reflexivity. Qed.

Example test_parse_comment : parse_line "! Block foo" = Ok (Comment "Block foo").
Proof. vm_compute. reflexivity. Qed.

Example test_parse_meta :
  parse_line "! Homepage  :  http://aaa.com/b"
  = Ok (Metadata "Homepage" "http://aaa.com/b").
Proof. vm_compute. reflexivity. Qed.

Example test_parse_nonmeta :
  parse_line "! WrongHeader: something"
  = Ok (Comment "WrongHeader: something").
Proof. vm_compute. reflexivity. Qed.

Example test_parse_instruction :
  parse_line "%include foo:bar/baz.txt%" = Ok (Include "foo:bar/baz.txt").
Proof. vm_compute. reflexivity. Qed.

Example test_parse_bad_instruction :
  exists e, parse_line "%foo bar%" = Raise (EParse e).
Proof. eexists. vm_compute. reflexivity. Qed.

Example test_parse_header :
  parse_line "[Adblock Plus 1.1]" = Ok (Header "Adblock Plus 1.1").
Proof. vm_compute. reflexivity. Qed.

Example test_parse_bad_header :
  exists e, parse_line "[Adblock 1.1]" = Raise (EParse e).
Proof. eexists. vm_compute. reflexivity. Qed.

Example test_parse_filterlist :
  next_n 3 (parse_filterlist ["! foo"; "! Title: bar"])
  = ([Yield (Comment "foo"); Yield (Metadata "Title" "bar"); StopIteration],
     Finished).
Proof. vm_compute. reflexivity. Qed.

Example test_exception_timing :
  exists e,
    (next_n 2 (parse_filterlist ["! good line"; "%bad line%"])).1
    = [Yield (Comment "good line"); Raised (EParse e)].
Proof. eexists. vm_compute. reflexivity. Qed.

End TestSuite.

(** ** Strings *)

Section StringFacts.

Lemma str_app_cons (a : ascii) (s t : string) :
  String a s +:+ t = String a (s +:+ t).
Proof. reflexivity. Qed.

Lemma str_app_nil_l (t : string) : "" +:+ t = t.
Proof. reflexivity. Qed.

Lemma str_app_nil_r (s : string) : s +:+ "" = s.
Proof. induction s as [|a s IH]; [done|]. by rewrite str_app_cons, IH. Qed.

Lemma str_app_assoc (s t u : string) : (s +:+ t) +:+ u = s +:+ (t +:+ u).
Proof.
  induction s as [|a s IH]; [done|]. by rewrite !str_app_cons, IH.
Qed.

Lemma str_length_app (s t : string) :
  String.length (s +:+ t) = String.length s + String.length t.
Proof.
  induction s as [|a s IH]; [done|]. rewrite str_app_cons. simpl. by rewrite IH.
Qed.

Lemma str_app_inv_head (s t u : string) : s +:+ t = s +:+ u -> t = u.
Proof.
  induction s as [|a s IH]; [done|]. rewrite !str_app_cons. intros [= H]. auto.
Qed.

Lemma length_zero (s : string) : String.length s = 0 -> s = "".
Proof. by destruct s. Qed.

Lemma remove_app (c : ascii) (s t : string) :
  remove c (s +:+ t) = remove c s +:+ remove c t.
Proof.
  induction s as [|a s IH]; [done|]. rewrite str_app_cons. simpl.
  destruct (Ascii.eqb a c); [done|]. by rewrite str_app_cons, IH.
Qed.

Lemma remove_nil_all (c : ascii) (s : string) :
  remove c s = "" -> all_chars (Ascii.eqb c) s = true.
Proof.
  induction s as [|a s IH]; [done|]. simpl.
  destruct (Ascii.eqb a c) eqn:E; [|done].
  apply Ascii.eqb_eq in E as ->. rewrite Ascii.eqb_refl. auto.
Qed.

Lemma isspace_space : isspace " " = true.
Proof. reflexivity. Qed.

Lemma all_space_isspace (s : string) :
  all_chars (Ascii.eqb " ") s = true -> all_chars isspace s = true.
Proof.
  induction s as [|a s IH]; [done|]. simpl.
  intros [E H]%andb_prop. apply Ascii.eqb_eq in E as <-.
  by rewrite isspace_space, IH.
Qed.

Lemma remove_whitespace_remove_space (s : string) :
  remove_whitespace (remove " " s) = remove_whitespace s.
Proof.
  induction s as [|a s IH]; [done|]. simpl.
  destruct (Ascii.eqb a " ") eqn:E.
  - apply Ascii.eqb_eq in E as ->. by rewrite isspace_space.
  - simpl. by rewrite IH.
Qed.

Lemma remove_whitespace_lstrip (s : string) :
  remove_whitespace (lstrip s) = remove_whitespace s.
Proof.
  induction s as [|a s IH]; [done|]. simpl.
  destruct (isspace a) eqn:E; [done|]. simpl. by rewrite E.
Qed.

Lemma remove_whitespace_rstrip (s : string) :
  remove_whitespace (rstrip s) = remove_whitespace s.
Proof.
  induction s as [|a s IH]; [done|]. simpl.
  destruct (rstrip s) as [|b t] eqn:R.
  - rewrite <- IH. destruct (isspace a) eqn:E; simpl; by rewrite ?E.
  - rewrite <- IH. reflexivity.
Qed.

Lemma remove_whitespace_strip (s : string) :
  remove_whitespace (strip s) = remove_whitespace s.
Proof.
  unfold strip. by rewrite remove_whitespace_rstrip, remove_whitespace_lstrip.
Qed.

(** [rstrip] leaves no whitespace at the end. *)
Lemma rstrip_app_space (u v : string) :
  all_chars isspace v = true -> rstrip (u +:+ v) = rstrip u.
Proof.
  intros Hv. induction u as [|a u IH].
  - rewrite str_app_nil_l. induction v as [|b v IHv]; [done|].
    simpl in *. apply andb_prop in Hv as [Hb Hv].
    by rewrite (IHv Hv), Hb.
  - rewrite str_app_cons. simpl. by rewrite IH.
Qed.

Lemma rstrip_idemp (s : string) : rstrip (rstrip s) = rstrip s.
Proof.
  induction s as [|a s IH]; [done|]. simpl.
  destruct (rstrip s) as [|b t] eqn:R.
  - destruct (isspace a) eqn:E; [done|]. simpl. by rewrite E.
  - simpl in *. rewrite IH. reflexivity.
Qed.

Lemma rstrip_length (s : string) :
  String.length (rstrip s) <= String.length s.
Proof.
  induction s as [|a s IH]; [done|]. simpl.
  destruct (rstrip s) as [|b t]; [destruct (isspace a)|]; simpl in *; lia.
Qed.

Lemma strip_no_trailing_space (s u v : string) :
  strip s = u +:+ v -> all_chars isspace v = true -> v = "".
Proof.
  unfold strip. intros H Hv.
  pose proof (rstrip_idemp (lstrip s)) as Hi.
  rewrite H, (rstrip_app_space _ _ Hv) in Hi.
  pose proof (rstrip_length u) as Hl.
  rewrite Hi, str_length_app in Hl.
  apply length_zero. lia.
Qed.

End StringFacts.

(** ** The matcher finds matches *)

Section MatcherFacts.

Variable icase : bool.

Lemma orelse_Some {A} (x y : option A) (a : A) :
  orelse x y = Some a -> x = Some a \/ y = Some a.
Proof. destruct x; simpl; auto. Qed.

Lemma star_loop_sound body g k r :
  (forall st k' res, body st k' = Some res ->
     exists st', matches icase r st st' /\ k' st' = Some res) ->
  forall fuel st res,
    star_loop body g k fuel st = Some res ->
    exists st', matches icase (Star g r) st st' /\ k st' = Some res.
Proof.
  intros Hbody fuel.
  induction fuel as [|fuel IH]; intros st res H; simpl in H.
  - exists st. split; [constructor | done].
  - assert (Hcase :
      k st = Some res \/
      body st (fun st1 =>
        if String.length (rest st1) <? String.length (rest st)
        then star_loop body g k fuel st1 else None) = Some res).
    { destruct g; apply orelse_Some in H; tauto. }
    destruct Hcase as [Hk | Hagain].
    + exists st. split; [constructor | done].
    + apply Hbody in Hagain as (st1 & Hm1 & Hrest).
      destruct (String.length (rest st1) <? String.length (rest st));
        [|done].
      apply IH in Hrest as (st2 & Hm2 & Hk).
      exists st2. split; [|done]. by apply M_Star_more with st1.
Qed.

Theorem rmatch_sound r :
  forall st k res,
    rmatch icase r st k = Some res ->
    exists st', matches icase r st st' /\ k st' = Some res.
Proof.
  induction r as [| c | | p | r1 IH1 r2 IH2 | r1 IH1 r2 IH2 | g r1 IH1
                  | n r1 IH1 | |]; intros st k res H; simpl in H.
  - exists st. split; [constructor | done].
  - destruct (rest st) as [|a s'] eqn:R; [done|].
    destruct (chr_eq icase c a) eqn:E; [|done].
    exists (advance st s'). split; [by apply M_Chr with a | done].
  - destruct (rest st) as [|a s'] eqn:R; [done|].
    destruct (Ascii.eqb a newline) eqn:E; [done|].
    exists (advance st s'). split; [by apply M_Dot with a | done].
  - destruct (rest st) as [|a s'] eqn:R; [done|].
    destruct (p a) eqn:E; [|done].
    exists (advance st s'). split; [by apply M_Class with a | done].
  - apply IH1 in H as (st1 & Hm1 & H).
    apply IH2 in H as (st2 & Hm2 & H).
    exists st2. split; [by apply M_Cat with st1 | done].
  - apply orelse_Some in H as [H | H].
    + apply IH1 in H as (st' & Hm & H). exists st'.
      split; [by apply M_Alt_l | done].
    + apply IH2 in H as (st' & Hm & H). exists st'.
      split; [by apply M_Alt_r | done].
  - exact (star_loop_sound (rmatch icase r1) g k r1 IH1
             (S (String.length (rest st))) st res H).
  - apply IH1 in H as (st1 & Hm1 & H).
    exists (capture n st st1). split; [by constructor | done].
  - destruct (pos st =? 0) eqn:E; [|done].
    exists st. split; [|done]. constructor. by apply Nat.eqb_eq.
  - exists st.
    destruct (rest st) as [|a [|b s']] eqn:R.
    + split; [constructor; auto | done].
    + destruct (Ascii.eqb a newline) eqn:E; [|done].
      apply Ascii.eqb_eq in E as ->.
      split; [constructor; auto | done].
    + done.
Qed.

(** A match reads a piece of the text, from left to right. *)
Lemma matches_consumes r st st' :
  matches icase r st st' ->
  exists w, rest st = w +:+ rest st' /\
            pos st' = pos st + String.length w.
Proof.
  induction 1 as
    [ st | c a s' st R E | a s' st R E | p a s' st R E
    | r1 r2 st st1 st2 _ IH1 _ IH2 | r1 r2 st st' _ IH | r1 r2 st st' _ IH
    | g r st | g r st st1 st2 _ IH1 _ IH2 | n r st st1 _ IH
    | st E | st E ];
    try (exists ""; split; [done | simpl; lia]);
    try (exists (String a ""); simpl; split; [done | lia]);
    try done.
  - destruct IH1 as (w1 & E1 & P1), IH2 as (w2 & E2 & P2).
    exists (w1 +:+ w2). rewrite str_app_assoc, str_length_app, <- E2. split; [done | lia].
  - destruct IH1 as (w1 & E1 & P1), IH2 as (w2 & E2 & P2).
    exists (w1 +:+ w2). rewrite str_app_assoc, str_length_app, <- E2. split; [done | lia].
Qed.

Lemma slice_to_app (w s : string) :
  slice_to (String.length (w +:+ s) - String.length s) (w +:+ s) = w.
Proof.
  rewrite str_length_app.
  replace (String.length w + String.length s - String.length s)
    with (String.length w) by lia.
  induction w as [|a w IH].
  - by destruct s.
  - rewrite str_app_cons. simpl. by rewrite IH.
Qed.

Lemma consumed_app st st' w :
  rest st = w +:+ rest st' -> consumed st st' = w.
Proof. unfold consumed. intros ->. apply slice_to_app. Qed.

(** Groups, once set, stay set. *)
Lemma matches_caps_mono n r st st' :
  matches icase r st st' ->
  is_Some (caps st !! n) -> is_Some (caps st' !! n).
Proof.
  induction 1; simpl; auto.
  intros Hn. destruct (decide (n0 = n)) as [->|Hne].
  - rewrite lookup_insert_eq. eauto.
  - rewrite lookup_insert_ne by done. auto.
Qed.

Lemma matches_sets n r st st' :
  matches icase r st st' -> sets n r = true -> is_Some (caps st' !! n).
Proof.
  induction 1 as
    [ | | |
    | r1 r2 st st1 st2 H1 IH1 H2 IH2 | r1 r2 st st' _ IH | r1 r2 st st' _ IH
    | | | m r st st1 _ IH | | ]; simpl; try done.
  - intros [S1 | S2]%orb_prop; [|auto].
    eapply matches_caps_mono; eauto.
  - intros [S1 S2]%andb_prop. auto.
  - intros [S1 S2]%andb_prop. auto.
  - intros [E | S1]%orb_prop.
    + apply Nat.eqb_eq in E as ->. rewrite lookup_insert_eq. eauto.
    + destruct (decide (m = n)) as [->|Hne].
      * rewrite lookup_insert_eq. eauto.
      * rewrite lookup_insert_ne by done. auto.
Qed.

Lemma matches_length r st st' :
  matches icase r st st' ->
  String.length (rest st') <= String.length (rest st) /\
  (nonnull r = true -> String.length (rest st') < String.length (rest st)).
Proof.
  intros H. destruct (matches_consumes _ _ _ H) as (w & E & _).
  split; [rewrite E, str_length_app; lia|].
  clear w E.
  induction H as
    [ st | c a s' st R E | a s' st R E | p a s' st R E
    | r1 r2 st st1 st2 H1 IH1 H2 IH2 | r1 r2 st st' _ IH | r1 r2 st st' _ IH
    | g r st | g r st st1 st2 _ IH1 _ IH2 | n r st st1 _ IH
    | st E | st E ]; simpl; try done;
    try (rewrite R; simpl; lia).
  - destruct (matches_consumes _ _ _ H1) as (w1 & E1 & _).
    destruct (matches_consumes _ _ _ H2) as (w2 & E2 & _).
    rewrite E1, E2, !str_length_app in *.
    intros [N1 | N2]%orb_prop; [specialize (IH1 N1) | specialize (IH2 N2)];
      lia.
  - intros [N1 N2]%andb_prop. auto.
  - intros [N1 N2]%andb_prop. auto.
Qed.

Lemma consumed_nonempty st st' :
  String.length (rest st') < String.length (rest st) ->
  consumed st st' <> "".
Proof.
  unfold consumed. intros H.
  destruct (String.length (rest st) - String.length (rest st')) eqn:E;
    [lia|].
  destruct (rest st); simpl in *; [lia | done].
Qed.

Lemma matches_group_nonnull n r st st' :
  matches icase r st st' -> group_nonnull n r = true ->
  (forall w, caps st !! n = Some w -> w <> "") ->
  forall w, caps st' !! n = Some w -> w <> "".
Proof.
  induction 1 as
    [ st | c a s' st R E | a s' st R E | p a s' st R E
    | r1 r2 st st1 st2 H1 IH1 H2 IH2 | r1 r2 st st' _ IH | r1 r2 st st' _ IH
    | g r st | g r st st1 st2 _ IH1 _ IH2 | m r st st1 Hm IH
    | st E | st E ]; simpl; intros G Hst; try done.
  - apply andb_prop in G as [G1 G2]. auto.
  - apply andb_prop in G as [G1 G2]. auto.
  - apply andb_prop in G as [G1 G2]. auto.
  - apply IH2; [done|]. by apply IH1.
  - apply andb_prop in G as [G1 G2]. intros w.
    destruct (decide (m = n)) as [->|Hne].
    + rewrite lookup_insert_eq. intros [= <-].
      rewrite Nat.eqb_refl in G1. simpl in G1.
      apply consumed_nonempty.
      apply matches_length in Hm as [_ Hm]. by apply Hm.
    + rewrite lookup_insert_ne by done. by apply IH.
Qed.

(** The same facts for match objects. *)
Lemma match_at_matches r p s m :
  match_at icase r p s = Some m ->
  exists st', matches icase r {| pos := p; rest := s; caps := ∅ |} st' /\
              m = {| m_start := p; m_end := pos st'; m_groups := caps st' |}.
Proof.
  unfold match_at. intros H.
  destruct (rmatch icase r _ Some) as [st|] eqn:R; [|done].
  apply rmatch_sound in R as (st' & Hm & [= ->]).
  exists st. split; [done | congruence].
Qed.

Lemma match_at_sets n r p s m :
  sets n r = true -> match_at icase r p s = Some m -> is_Some (group m n).
Proof.
  intros Hs (st' & Hm & ->)%match_at_matches.
  unfold group. simpl. by eapply matches_sets.
Qed.

Lemma match_at_group_nonnull n r p s m w :
  group_nonnull n r = true -> match_at icase r p s = Some m ->
  group m n = Some w -> w <> "".
Proof.
  intros Hs (st' & Hm & ->)%match_at_matches.
  unfold group. simpl.
  eapply matches_group_nonnull; [done | done |].
  simpl. intros w'. by rewrite lookup_empty.
Qed.

Lemma finditer_from_match_at r m :
  forall s p skip,
    m ∈ finditer_from icase r p skip s ->
    exists p' s', match_at icase r p' s' = Some m.
Proof.
  induction s as [|a s IH]; intros p skip; simpl.
  - destruct skip; [|by intros ?%elem_of_nil].
    destruct (match_at icase r p "") as [m'|] eqn:E;
      [|by intros ?%elem_of_nil].
    intros ->%list_elem_of_singleton. eauto.
  - destruct skip; [|by apply IH].
    destruct (match_at icase r p (String a s)) as [m'|] eqn:E;
      [|by apply IH].
    intros [->|H]%elem_of_cons; [eauto | by apply IH in H].
Qed.

End MatcherFacts.

(** ** The parser *)

Ltac inv_bind H :=
  match type of H with
  | bind ?x _ = Ok _ =>
      let E := fresh "E" in
      destruct x eqn:E; simpl in H; [|discriminate H]
  end.

Section GroupsSet.

Lemma search_from_match_at icase r m :
  forall s p,
    search_from icase r p s = Some m ->
    exists p' s', match_at icase r p' s' = Some m.
Proof.
  induction s as [|a s IH]; intros p; simpl;
    destruct (match_at icase r p _) as [m'|] eqn:E; try done.
  - intros [= ->]. eauto.
  - intros [= ->]. eauto.
  - apply IH.
Qed.

(** The groups that the parser reads as text are set in every match of
    their pattern. *)
Lemma parse_groups_set :
  (forall s m, re_match false METADATA_REGEXP s = Some m ->
     is_Some (group m 1) /\ is_Some (group m 2)) /\
  (forall s m, re_match true HEADER_REGEXP s = Some m ->
     is_Some (group m 1)) /\
  (forall s m, re_match false INCLUDE_REGEXP s = Some m ->
     is_Some (group m 1)) /\
  (forall s m, re_search false BFILTER_OPTIONS_REGEXP s = Some m ->
     is_Some (group m 1)) /\
  (forall s m, re_match false HFILTER_REGEXP s = Some m ->
     is_Some (group m 1)).
Proof.
  split_and!; intros s m H;
    try (apply search_from_match_at in H as (p' & s' & H));
    try split; by eapply match_at_sets in H.
Qed.

(** Every attribute rule found by [OLD_ATTRS_REGEXP] has a name, which
    is not empty. *)
Lemma old_attrs_name s m :
  m ∈ finditer false OLD_ATTRS_REGEXP s ->
  exists name, group m 1 = Some name /\ name <> "".
Proof.
  intros (p' & s' & H)%finditer_from_match_at.
  destruct (match_at_sets false 1 OLD_ATTRS_REGEXP _ _ _ eq_refl H)
    as [name Hn].
  exists name. split; [done|].
  exact (match_at_group_nonnull false 1 OLD_ATTRS_REGEXP _ _ _ _
           eq_refl H Hn).
Qed.

End GroupsSet.

Section ParseLine.

(** What the last two lines of [parse_line] give: the record of the
    branch taken, and the assertion. *)
Lemma parse_line_assert l r :
  parse_line l = Ok r ->
  remove " " (to_string r) = remove " " (strip l).
Proof.
  unfold parse_line. intros H. inv_bind H.
  case_bool_decide; [|done]. congruence.
Qed.

Lemma _parse_comment_kind t r :
  _parse_comment t = Ok r ->
  (exists text, r = Comment text) \/
  (exists key value, r = Metadata key value).
Proof.
  unfold _parse_comment. intros H.
  destruct (re_match false METADATA_REGEXP t) as [m|];
    [|inversion H; eauto].
  destruct (group m 1) as [key|]; [|inversion H; eauto].
  case_bool_decide; [|inversion H; eauto].
  inv_bind H. inversion H. eauto.
Qed.

Lemma _parse_instruction_kind t r :
  _parse_instruction t = Ok r -> exists target, r = Include target.
Proof.
  unfold _parse_instruction. intros H.
  destruct (re_match false INCLUDE_REGEXP t) as [m|]; [|done].
  inv_bind H. inversion H. eauto.
Qed.

Lemma _parse_header_kind t r :
  _parse_header t = Ok r -> exists version, r = Header version.
Proof.
  unfold _parse_header. intros H.
  destruct (re_match true HEADER_REGEXP t) as [m|]; [|done].
  inv_bind H. inversion H. eauto.
Qed.

Lemma _parse_filter_expression t r :
  _parse_filter t = Ok r ->
  is_filter r = true /\ expression_of r = Some t.
Proof.
  unfold _parse_filter. intros H.
  destruct (if contains "#" t then _ else _) as [m|].
  - unfold _parse_hiding_filter in H.
    inv_bind H. inv_bind H. by inversion H.
  - unfold _parse_blocking_filter in H.
    destruct (if contains "$" _ then _ else _) as [m|].
    + inv_bind H. inv_bind H. by inversion H.
    + by inversion H.
Qed.

(** The branch of [parse_line] that gave a filter record is
    [_parse_filter], called on the trimmed line. *)
Lemma parse_line_filter l r :
  parse_line l = Ok r -> is_filter r = true ->
  _parse_filter (strip l) = Ok r.
Proof.
  unfold parse_line. intros H Hf. inv_bind H.
  case_bool_decide; [|done]. injection H as ->.
  case_bool_decide; [by injection E as <-|].
  destruct (startswith "!" (strip l)).
  { by apply _parse_comment_kind in E as [[? ->]|(? & ? & ->)]. }
  destruct (startswith "%" (strip l) && endswith "%" (strip l)).
  { apply _parse_instruction_kind in E as [? ->]. done. }
  destruct (startswith "[" (strip l) && endswith "]" (strip l)).
  { apply _parse_header_kind in E as [? ->]. done. }
  done.
Qed.

End ParseLine.

(** C1. For every line that [parse_line] parses successfully, the rendered
    record ([to_string]) with all whitespace removed equals the original
    line with all whitespace removed. *)
Theorem parse_line_round_trip (l : string) (r : line) :
  parse_line l = Ok r ->
  remove_whitespace (to_string r) = remove_whitespace l.
Proof.
  intros H%parse_line_assert.
  rewrite <- (remove_whitespace_remove_space (to_string r)), H.
  by rewrite remove_whitespace_remove_space, remove_whitespace_strip.
Qed.

Lemma parse_line_round_trip_witness :
  parse_line "  ! Block  foo " = Ok (Comment "Block  foo") /\
  remove_whitespace (to_string (Comment "Block  foo"))
  = remove_whitespace "  ! Block  foo ".
Proof.
  split; [vm_compute; reflexivity|].
  apply parse_line_round_trip. vm_compute. reflexivity.
Defined.

(** C10. For every successfully parsed BlockingFilter or HidingFilter
    record, [to_string] returns exactly the stored [expression] field,
    which is the trimmed input line. *)
Theorem filter_to_string_exact (l : string) (r : line) :
  parse_line l = Ok r -> is_filter r = true ->
  expression_of r = Some (strip l) /\ to_string r = strip l.
Proof.
  intros H Hf.
  destruct (_parse_filter_expression _ _ (parse_line_filter _ _ H Hf))
    as [_ He].
  split; [done|].
  destruct r; simpl in *; congruence.
Qed.

Lemma filter_to_string_exact_witness :
  let l := "  @@||example.com/good.gif$image  " in
  let r := BlockingFilter "@@||example.com/good.gif$image" true
             {[ "image" := VBool true ]} "||example.com/good.gif" in
  parse_line l = Ok r /\ expression_of r = Some (strip l) /\
  to_string r = strip l.
Proof.
  assert (H : parse_line "  @@||example.com/good.gif$image  "
              = Ok (BlockingFilter "@@||example.com/good.gif$image" true
                      {[ "image" := VBool true ]} "||example.com/good.gif")).
  { vm_compute. reflexivity. }
  split; [exact H|].
  exact (filter_to_string_exact _ _ H eq_refl).
Defined.

(** ** The generator *)

Section Generator.

Lemma next_n_add a b g :
  next_n (a + b) g =
  let '(o1, g1) := next_n a g in
  let '(o2, g2) := next_n b g1 in
  (o1 ++ o2, g2).
Proof.
  revert g. induction a as [|a IH]; intros g; simpl.
  - by destruct (next_n b g).
  - destruct (next g) as [o g']. rewrite IH.
    destruct (next_n a g') as [o1 g1]. by destruct (next_n b g1).
Qed.

(** A finished generator stays finished. *)
Lemma next_n_finished n :
  next_n n Finished = (replicate n StopIteration, Finished).
Proof. induction n as [|n IH]; [done|]. simpl. by rewrite IH. Qed.

(** The lines that parse are yielded one by one, and nothing after them
    is looked at. *)
Lemma next_n_yields pre rs lines :
  Forall2 (fun l r => parse_line l = Ok r) pre rs ->
  next_n (length pre) (Suspended (pre ++ lines))
  = (Yield <$> rs, Suspended lines).
Proof.
  induction 1 as [|l r pre rs Hl _ IH]; [done|].
  simpl. by rewrite Hl, IH.
Qed.

End Generator.

(** C2, as amended. A parse failure at line i is raised only when record i
    is requested: the requests before it yield the records of the lines
    before it. The failure ends the iteration: every later request raises
    [StopIteration], and the lines after line i are not parsed. *)
Theorem parse_filterlist_failure_is_final
    (pre : list string) (rs : list line) (bad : string) (e : exn)
    (post : list string) (n : nat) :
  Forall2 (fun l r => parse_line l = Ok r) pre rs ->
  parse_line bad = Raise e ->
  next_n (length pre) (parse_filterlist (pre ++ bad :: post))
    = (Yield <$> rs, Suspended (bad :: post)) /\
  next_n (length pre + (1 + n)) (parse_filterlist (pre ++ bad :: post))
    = ((Yield <$> rs) ++ Raised e :: replicate n StopIteration, Finished).
Proof.
  intros Hpre Hbad. unfold parse_filterlist.
  pose proof (next_n_yields _ _ (bad :: post) Hpre) as Hy.
  split; [done|].
  rewrite next_n_add, Hy. simpl. by rewrite Hbad, next_n_finished.
Qed.

Lemma parse_filterlist_failure_is_final_witness :
  next_n (1 + (1 + 2))
    (parse_filterlist (["! good line"] ++ "%bad line%" :: ["! next line"]))
  = ((Yield <$> [Comment "good line"])
     ++ Raised (EParse (ParseError "Unrecognized instruction" "%bad line%"))
     :: replicate 2 StopIteration, Finished).
Proof.
  refine (proj2 (parse_filterlist_failure_is_final
    ["! good line"] [Comment "good line"] "%bad line%"
    (EParse (ParseError "Unrecognized instruction" "%bad line%"))
    ["! next line"] 2 _ _)).
  - repeat constructor.
  - vm_compute. reflexivity.
Defined.

(** C2 as stated fails: after the failure at the second line, the third
    request does not yield the record of the third line. *)
Lemma parse_filterlist_resume_counterexample :
  (next_n 3 (parse_filterlist ["! good line"; "%bad line%"; "! next line"])).1
  = [Yield (Comment "good line");
     Raised (EParse (ParseError "Unrecognized instruction" "%bad line%"));
     StopIteration] /\
  ~ (exists t,
       (next_n 3
          (parse_filterlist ["! good line"; "%bad line%"; "! next line"])).1
       !! 2 = Some (Yield (Comment t))).
Proof.
  split; [vm_compute; reflexivity|].
  intros [t H]. vm_compute in H. discriminate H.
Qed.

(** ** Failing inputs *)

Section BareDomain.

(** [AttributeError] is the only thing that one option can raise. *)
Lemma parse_option_raises option e :
  parse_option option = Raise e -> e = AttributeError.
Proof.
  unfold parse_option.
  destruct (if contains "=" option then _ else _) as [name value].
  case_bool_decide; [|done].
  destruct value; [|done|]; by intros [= <-].
Qed.

Lemma parse_options_loop_bare_domain options :
  forall parsed_options,
    "domain" ∈ options \/ "~domain" ∈ options ->
    parse_options_loop options parsed_options = Raise AttributeError.
Proof.
  induction options as [|o options IH]; intros acc Hin.
  - destruct Hin as [H|H]; by apply elem_of_nil in H.
  - simpl. destruct (parse_option o) as [nv|e] eqn:E; simpl.
    + apply IH.
      destruct Hin as [[<-|H]%elem_of_cons|[<-|H]%elem_of_cons]; auto;
        vm_compute in E; discriminate E.
    + by apply parse_option_raises in E as ->.
Qed.

End BareDomain.

(** C3. A bare [domain] or [~domain] option is not parsed into the
    sequence [["domain"]]: [value] is then [True] or [False], and
    [value.split] raises [AttributeError], whatever the other options
    are. *)
Theorem bare_domain_option_raises :
  (forall text options : string,
     "domain" ∈ split "," options \/ "~domain" ∈ split "," options ->
     _parse_filter_options text options = Raise AttributeError) /\
  parse_line "||example.com$domain" = Raise AttributeError /\
  parse_line "||example.com$~domain" = Raise AttributeError /\
  parse_line "||example.com$image,domain" = Raise AttributeError.
Proof.
  split_and!; [|vm_compute; reflexivity ..].
  intros text options H. by apply parse_options_loop_bare_domain.
Qed.

Lemma bare_domain_option_raises_witness :
  _parse_filter_options "||example.com$image,~domain,domain=a.com"
    "image,~domain,domain=a.com"
  = Raise AttributeError.
Proof.
  apply (proj1 bare_domain_option_raises).
  right.
  assert (E : split "," "image,~domain,domain=a.com"
              = ["image"; "~domain"; "domain=a.com"])
    by (vm_compute; reflexivity).
  rewrite E. apply elem_of_cons. right. apply elem_of_cons. by left.
Defined.

(** C4. The two errors of the legacy hiding filters are built with their
    arguments the other way round: the attribute [text] holds the reason
    and the attribute [error] holds the filter, unlike the errors of
    headers and instructions. *)
Theorem legacy_errors_swap_attributes :
  parse_line "abc.com#div(foo)(bar)"
    = Raise (EParse {| error := "abc.com#div(foo)(bar)";
                       text := "Duplicate id in attriute rules" |}) /\
  parse_line "abc.com#*"
    = Raise (EParse {| error := "abc.com#*";
                       text := "Filter matches everything" |}) /\
  parse_line "[Adblock 1.1]"
    = Raise (EParse {| error := "Malformed header";
                       text := "[Adblock 1.1]" |}) /\
  parse_line "%foo bar%"
    = Raise (EParse {| error := "Unrecognized instruction";
                       text := "%foo bar%" |}).
Proof. split_and!; vm_compute; reflexivity. Qed.

(** C6. [_parse_header] itself gives a [Header] or the error of a
    malformed header with the text, but a bracketed line can end in a
    third way: the header pattern is matched at the start of the line
    only, so a line that goes on after the first closing bracket gives a
    [Header] that does not render back to the line, and the assertion of
    [parse_line] fails. *)
Theorem header_with_trailing_text_fails_assertion :
  (forall t : string,
     (exists version, _parse_header t = Ok (Header version)) \/
     _parse_header t = Raise (EParse (ParseError "Malformed header" t))) /\
  startswith "[" "[Adblock]]" = true /\
  endswith "]" "[Adblock]]" = true /\
  _parse_header "[Adblock]]" = Ok (Header "Adblock") /\
  parse_line "[Adblock]]" = Raise AssertionError /\
  parse_line "[Adblock Plus 1.1] [x]" = Raise AssertionError.
Proof.
  split_and!; [|vm_compute; reflexivity ..].
  intros t. unfold _parse_header.
  destruct (re_match true HEADER_REGEXP t) as [m|] eqn:M; [|by right].
  apply parse_groups_set in M as [version ->]. left. by exists version.
Qed.

(** C7. [_parse_comment] itself always gives a record, but a comment line
    can fail: the assertion of [parse_line] removes the blanks only, and a
    tab after the marker is lost in the record. *)
Theorem comment_with_tab_fails_assertion :
  (forall t : string, exists r, _parse_comment t = Ok r) /\
  _parse_comment (String "!" (String tab "foo")) = Ok (Comment "foo") /\
  parse_line (String "!" (String tab "foo")) = Raise AssertionError /\
  _parse_comment (String "!" (String tab "Title: x"))
    = Ok (Metadata "Title" "x") /\
  parse_line (String "!" (String tab "Title: x")) = Raise AssertionError.
Proof.
  split_and!; [|vm_compute; reflexivity ..].
  intros t. unfold _parse_comment.
  destruct (re_match false METADATA_REGEXP t) as [m|] eqn:M; [|eauto].
  apply parse_groups_set in M as [[key ->] [value ->]].
  case_bool_decide; simpl; eauto.
Qed.

(** ** Legacy hiding filters *)

Section LegacySelector.

(** The rules with an operator and the bare rules of an attribute
    list. *)
Abbreviation with_op := (fun m : match_obj => group_truthy (group m 2) = true).
Abbreviation bare := (fun m : match_obj => group_truthy (group m 2) = false).

Lemma attr_rules_loop_no_bare text ms :
  forall constraints_list class_or_id,
    filter bare ms = [] ->
    attr_rules_loop text ms constraints_list class_or_id
    = Ok (constraints_list ++ (constraint_of <$> filter with_op ms),
          class_or_id).
Proof.
  induction ms as [|m ms IH]; intros cl coi Hb;
    cbn [attr_rules_loop].
  - by rewrite filter_nil, fmap_nil, app_nil_r.
  - destruct (group_truthy (group m 2)) eqn:E.
    + rewrite filter_cons_False in Hb by congruence.
      rewrite filter_cons_True by done.
      rewrite IH by done. by rewrite fmap_cons, <- app_assoc.
    + by rewrite filter_cons_True in Hb by done.
Qed.

Lemma attr_rules_loop_one_bare text ms m0 :
  forall constraints_list,
    filter bare ms = [m0] ->
    attr_rules_loop text ms constraints_list None
    = Ok (constraints_list ++ (constraint_of <$> filter with_op ms),
          group m0 1).
Proof.
  induction ms as [|m ms IH]; intros cl Hb; cbn [attr_rules_loop].
  - by rewrite filter_nil in Hb.
  - destruct (group_truthy (group m 2)) eqn:E.
    + rewrite filter_cons_False in Hb by congruence.
      rewrite filter_cons_True by done.
      rewrite IH by done. by rewrite fmap_cons, <- app_assoc.
    + rewrite filter_cons_True in Hb by done.
      injection Hb as -> Hb.
      rewrite filter_cons_False by congruence.
      by apply attr_rules_loop_no_bare.
Qed.

Lemma app_not_nil (s t : string) : t <> "" -> s +:+ t <> "".
Proof. destruct s; [done|]. by rewrite str_app_cons. Qed.

Lemma truthy_not_nil (s : string) : truthy s = true <-> s <> "".
Proof. by destruct s. Qed.

(** The selector that the conversion returns is never empty. *)
Lemma _tag_and_rules_to_selector_nonempty text tag attr_rules sel :
  _tag_and_rules_to_selector text tag attr_rules = Ok sel -> sel <> "".
Proof.
  unfold _tag_and_rules_to_selector.
  destruct attr_rules as [rules|]; [|done].
  intros H. inv_bind H. destruct a as [cl coi].
  destruct (group_truthy coi).
  { injection H as <-. by apply app_not_nil. }
  destruct (if bool_decide (tag = Some "*") then _ else _) as [t|];
    simpl in H.
  - destruct (truthy t || truthy (join cl)) eqn:T; [|done].
    injection H as <-.
    destruct t; [|done]. simpl in T. rewrite str_app_nil_l.
    by apply truthy_not_nil.
  - by destruct (truthy (join cl)).
Qed.

Lemma _parse_hiding_filter_selector text m e x sel d :
  _parse_hiding_filter text m = Ok (HidingFilter e x sel d) -> sel <> "".
Proof.
  unfold _parse_hiding_filter. intros H. inv_bind H. inv_bind H.
  injection H as _ _ <- _.
  destruct (group m 5) as [[|c s]|].
  - by apply _tag_and_rules_to_selector_nonempty in E0.
  - by injection E0 as <-.
  - by apply _tag_and_rules_to_selector_nonempty in E0.
Qed.

End LegacySelector.

(** C8. For a legacy hiding filter whose attribute list has exactly one
    bare rule, the selector is [tag.id constraints , tag#id constraints]
    (the tag [*] gives no tag), where the constraints are the rules with
    an operator, each rendered as [[name op "value"]], in source order; and
    the line [abc.com#div(foo)(name=bar)(value=baz)] gives the selector of
    the test suite. *)
Theorem legacy_selector_one_bare_rule :
  (forall (text tag rules : string) (m0 : match_obj),
     let ms := finditer false OLD_ATTRS_REGEXP rules in
     let tag' := if bool_decide (tag = "*") then "" else tag in
     let constraints :=
       join (constraint_of <$>
             filter (fun m => group_truthy (group m 2) = true) ms) in
     filter (fun m => group_truthy (group m 2) = false) ms = [m0] ->
     exists id,
       group m0 1 = Some id /\
       _tag_and_rules_to_selector text (Some tag) (Some rules)
       = Ok (tag' +:+ "." +:+ id +:+ constraints +:+ ","
             +:+ tag' +:+ "#" +:+ id +:+ constraints)) /\
  (forall (m : match_obj) (name op value : string),
     group m 1 = Some name -> group m 2 = Some op ->
     group m 3 = Some value ->
     constraint_of m
     = "[" +:+ name +:+ op +:+ String dquote value
       +:+ String dquote "]") /\
  (let q := String dquote "" in
   parse_line "abc.com#div(foo)(name=bar)(value=baz)"
   = Ok (HidingFilter "abc.com#div(foo)(name=bar)(value=baz)" false
           ("div.foo[name=" +:+ q +:+ "bar" +:+ q +:+ "][value=" +:+ q
            +:+ "baz" +:+ q +:+ "],div#foo[name=" +:+ q +:+ "bar" +:+ q
            +:+ "][value=" +:+ q +:+ "baz" +:+ q +:+ "]")
           ["abc.com"])).
Proof.
  split_and!.
  - intros text tag rules m0 ms tag' constraints Hb.
    assert (Hin : m0 ∈ ms).
    { assert (Hf : m0 ∈ filter
               (fun m => group_truthy (group m 2) = false) ms)
        by (rewrite Hb; apply list_elem_of_singleton; done).
      by apply list_elem_of_filter in Hf as [_ Hf]. }
    apply old_attrs_name in Hin as (id & Hid & Hne).
    exists id. split; [done|].
    unfold _tag_and_rules_to_selector.
    fold ms. rewrite (attr_rules_loop_one_bare _ _ m0) by done.
    simpl. rewrite Hid. simpl.
    apply truthy_not_nil in Hne as ->.
    fold constraints. unfold tag'.
    repeat case_bool_decide; simplify_eq; done.
  - intros m name op value H1 H2 H3. unfold constraint_of.
    rewrite H1, H2, H3. simpl.
    by rewrite !str_app_cons, !str_app_nil_l.
  - vm_compute. reflexivity.
Qed.

Lemma legacy_selector_one_bare_rule_witness :
  exists m0 id,
    filter (fun m => group_truthy (group m 2) = false)
      (finditer false OLD_ATTRS_REGEXP "(foo)(name=bar)") = [m0] /\
    group m0 1 = Some id /\
    _tag_and_rules_to_selector "abc.com#*(foo)(name=bar)" (Some "*")
      (Some "(foo)(name=bar)")
    = Ok ("" +:+ "." +:+ id
          +:+ join (constraint_of <$>
                filter (fun m => group_truthy (group m 2) = true)
                  (finditer false OLD_ATTRS_REGEXP "(foo)(name=bar)"))
          +:+ "," +:+ "" +:+ "#" +:+ id
          +:+ join (constraint_of <$>
                filter (fun m => group_truthy (group m 2) = true)
                  (finditer false OLD_ATTRS_REGEXP "(foo)(name=bar)"))).
Proof.
  eexists.
  assert (Hb : filter (fun m => group_truthy (group m 2) = false)
                 (finditer false OLD_ATTRS_REGEXP "(foo)(name=bar)")
               = [ {| m_start := 0; m_end := 5;
                      m_groups := {[ 1 := "foo" ]} |} ])
    by (vm_compute; reflexivity).
  destruct (proj1 legacy_selector_one_bare_rule
              "abc.com#*(foo)(name=bar)" "*" "(foo)(name=bar)" _ Hb)
    as (id & Hid & Hsel).
  exists id. split; [exact Hb|]. split; [exact Hid|]. exact Hsel.
Defined.

(** C9. The selector of every successfully parsed HidingFilter record is
    a non-empty string, whichever form it came from; a legacy rule whose
    tag is [*] and whose attribute list holds no rule is rejected with the
    error of filters that match everything. *)
Theorem hiding_filter_selector_nonempty :
  (forall (l expression selector : string) (is_exception : bool)
          (domains : list string),
     parse_line l = Ok (HidingFilter expression is_exception selector domains)
     -> selector <> "") /\
  (forall (text rules : string),
     finditer false OLD_ATTRS_REGEXP rules = [] ->
     _tag_and_rules_to_selector text (Some "*") (Some rules)
     = Raise (EParse (ParseError text "Filter matches everything"))) /\
  parse_line "abc.com#*"
  = Raise (EParse (ParseError "abc.com#*" "Filter matches everything")).
Proof.
  split_and!.
  - intros l e x sel d H.
    apply parse_line_filter in H; [|done].
    unfold _parse_filter in H.
    destruct (if contains "#" (strip l) then _ else _) as [m|].
    + by apply _parse_hiding_filter_selector in H.
    + unfold _parse_blocking_filter in H.
      destruct (if contains "$" _ then _ else _) as [m|]; [|done].
      inv_bind H. inv_bind H. done.
  - intros text rules H. unfold _tag_and_rules_to_selector.
    rewrite H. reflexivity.
  - vm_compute. reflexivity.
Qed.

Lemma hiding_filter_selector_nonempty_witness :
  "div#ad1" <> "" /\
  _tag_and_rules_to_selector "abc.com#*" (Some "*") (Some "")
  = Raise (EParse (ParseError "abc.com#*" "Filter matches everything")).
Proof.
  split.
  - apply (proj1 hiding_filter_selector_nonempty
             "abc.com,cdf.com##div#ad1" "abc.com,cdf.com##div#ad1"
             "div#ad1" false ["abc.com"; "cdf.com"]).
    vm_compute. reflexivity.
  - apply (proj1 (proj2 hiding_filter_selector_nonempty) "abc.com#*" "").
    vm_compute. reflexivity.
Defined.

(** ** Include instructions *)

Section IncludeTarget.

Lemma matches_Lit w :
  forall st st',
    matches false (Lit w) st st' ->
    rest st = w +:+ rest st' /\ caps st' = caps st.
Proof.
  induction w as [|c w IH]; intros st st' H; simpl in H.
  - by inversion H.
  - inversion H as [| | | | r1 r2 st0 st1 st2 H1 H2 | | | | | | |]; subst.
    inversion H1 as [| c' a s' st0 R E | | | | | | | | | |]; subst.
    apply IH in H2 as [H2 H3]. simpl in *.
    apply Ascii.eqb_eq in E as ->.
    by rewrite R, H2, str_app_cons.
Qed.

Lemma matches_Star_Class icase g p st st' :
  matches icase (Star g (Class p)) st st' ->
  exists w, rest st = w +:+ rest st' /\ all_chars p w = true /\
            caps st' = caps st.
Proof.
  intros H. remember (Star g (Class p)) as r eqn:Hr.
  induction H as
    [ | | |
    | | |
    | g' r' st | g' r' st st1 st2 H1 _ H2 IH2 | | | ]; try discriminate.
  - by exists "".
  - injection Hr as -> ->.
    destruct (IH2 eq_refl) as (w & E & A & C).
    inversion H1 as [| | | p' a s' st0 R Pa | | | | | | | |]; subst.
    exists (String a w). simpl in *.
    by rewrite R, E, Pa, A, str_app_cons.
Qed.

Lemma matches_Cat_inv icase r1 r2 st st' :
  matches icase (Cat r1 r2) st st' ->
  exists st1, matches icase r1 st st1 /\ matches icase r2 st1 st'.
Proof. inversion 1; subst; eauto. Qed.

Lemma matches_Chr_inv icase c st st' :
  matches icase (Chr c) st st' ->
  exists a s', rest st = String a s' /\ chr_eq icase c a = true /\
               st' = advance st s'.
Proof. inversion 1; subst; eauto. Qed.

Lemma matches_Class_inv icase p st st' :
  matches icase (Class p) st st' ->
  exists a s', rest st = String a s' /\ p a = true /\
               st' = advance st s'.
Proof. inversion 1; subst; eauto. Qed.

Lemma matches_Group_inv icase n r st st' :
  matches icase (Group n r) st st' ->
  exists st1, matches icase r st st1 /\ st' = capture n st st1.
Proof. inversion 1; subst; eauto. Qed.

(** What a match of [INCLUDE_REGEXP] looks like. *)
Lemma include_match c m :
  re_match false INCLUDE_REGEXP c = Some m ->
  exists ws target tail,
    c = "%include" +:+ ws +:+ target +:+ "%" +:+ tail /\
    group m 1 = Some target /\
    ws <> "" /\ all_chars isspace ws = true.
Proof.
  intros (st' & H & ->)%match_at_matches.
  unfold INCLUDE_REGEXP, Plus in H.
  apply matches_Cat_inv in H as (st1 & HLit & H).
  apply (matches_Lit "%include") in HLit as [E0 _]. simpl in E0.
  apply matches_Cat_inv in H as (st2 & Hws & H).
  apply matches_Cat_inv in Hws as (sta & Hw1 & Hw2).
  apply matches_Class_inv in Hw1 as (a & s' & Ra & Pa & ->).
  apply matches_Star_Class in Hw2 as (w & Ew & Aw & _). simpl in Ew.
  apply matches_Cat_inv in H as (st3 & Hg & Hc).
  apply matches_Group_inv in Hg as (st4 & Hdots & ->).
  apply matches_Chr_inv in Hc as (b & s'' & Rb & Eb & ->).
  simpl in Rb, Eb. apply Ascii.eqb_eq in Eb as <-.
  destruct (matches_consumes _ _ _ _ Hdots) as (t & Et & _).
  change ws with isspace in *.
  exists (String a w), t, s''.
  unfold group. simpl. rewrite lookup_insert_eq.
  rewrite (consumed_app _ _ _ Et).
  split_and!; [|done|done|by rewrite Pa, Aw].
  rewrite E0, Ra, Ew, Et, Rb. by rewrite !str_app_cons.
Qed.

Lemma parse_line_include l target :
  parse_line l = Ok (Include target) ->
  _parse_instruction (strip l) = Ok (Include target).
Proof.
  unfold parse_line. intros H. inv_bind H.
  case_bool_decide; [|done]. injection H as ->.
  case_bool_decide; [done|].
  destruct (startswith "!" (strip l)).
  { by apply _parse_comment_kind in E as [[? ?]|(? & ? & ?)]. }
  destruct (startswith "%" (strip l) && endswith "%" (strip l)); [done|].
  destruct (startswith "[" (strip l) && endswith "]" (strip l)).
  { by apply _parse_header_kind in E as [? ?]. }
  by apply _parse_filter_expression in E as [? _].
Qed.

End IncludeTarget.

(** C5, as amended. For every successfully parsed include line, the
    trimmed line is [%include], one or more blanks, the target and [%]:
    the target is the greedy capture, it runs up to the last [%] of the
    line and so keeps every [%] before it. *)
Theorem include_target_runs_to_last_percent (l target : string) :
  parse_line l = Ok (Include target) ->
  exists ws,
    strip l = "%include" +:+ ws +:+ target +:+ "%" /\
    ws <> "" /\ all_chars (Ascii.eqb " ") ws = true.
Proof.
  intros H. pose proof (parse_line_assert _ _ H) as HA.
  apply parse_line_include in H. unfold _parse_instruction in H.
  destruct (re_match false INCLUDE_REGEXP (strip l)) as [m|] eqn:M; [|done].
  inv_bind H. injection H as ->.
  apply include_match in M as (ws & t & tail & Ec & Hg & Hne & Hws).
  rewrite Hg in E. injection E as ->.
  assert (Hlen : String.length (remove " " ws) = 0 /\
                 String.length (remove " " tail) = 0).
  { rewrite Ec in HA. simpl to_string in HA.
    rewrite !remove_app in HA.
    change (remove " " "%include ") with "%include" in HA.
    change (remove " " "%include") with "%include" in HA.
    apply str_app_inv_head in HA.
    apply (f_equal String.length) in HA.
    rewrite !str_length_app in HA. lia. }
  destruct Hlen as [Hw Ht].
  apply length_zero, remove_nil_all in Hw.
  apply length_zero, remove_nil_all, all_space_isspace in Ht.
  assert (tail = "") as ->.
  { apply (strip_no_trailing_space l
             ("%include" +:+ ws +:+ target +:+ "%") tail); [|done].
    by rewrite Ec, !str_app_assoc. }
  exists ws. by rewrite Ec, str_app_nil_r.
Qed.

Lemma include_target_runs_to_last_percent_witness :
  exists ws,
    strip " %include  a%b% " = "%include" +:+ ws +:+ "a%b" +:+ "%" /\
    ws <> "" /\ all_chars (Ascii.eqb " ") ws = true.
Proof.
  apply (include_target_runs_to_last_percent " %include  a%b% " "a%b").
  vm_compute. reflexivity.
Defined.

(** C5 as stated fails: with a [%] inside the body, the target does not
    stop at the first [%] that completes the pattern. *)
Lemma include_target_counterexample :
  parse_line "%include a%b%" = Ok (Include "a%b") /\
  parse_line "%include a%b%" <> Ok (Include "a").
Proof.
  assert (H : parse_line "%include a%b%" = Ok (Include "a%b"))
    by (vm_compute; reflexivity).
  split; [exact H|]. rewrite H. discriminate.
Qed.

(** * Further properties of the parser *)

(** ** Trimming and dispatch *)

Section Trimming.

Lemma lstrip_head (s : string) :
  match lstrip s with
  | EmptyString => True
  | String c _ => isspace c = false
  end.
Proof.
  induction s as [|a s IH]; [done|]. simpl.
  destruct (isspace a) eqn:E; [done|]. by rewrite E.
Qed.

Lemma lstrip_rstrip_head (t : string) :
  match t with
  | EmptyString => True
  | String c _ => isspace c = false
  end ->
  lstrip (rstrip t) = rstrip t.
Proof.
  destruct t as [|c t]; [done|]. intros Hc. simpl.
  destruct (rstrip t); rewrite ?Hc; simpl; by rewrite Hc.
Qed.

Lemma lstrip_app_space (u v : string) :
  all_chars isspace u = true -> lstrip (u +:+ v) = lstrip v.
Proof.
  induction u as [|a u IH]; [done|]. rewrite str_app_cons. simpl.
  intros [Ha Hu]%andb_prop. rewrite Ha. auto.
Qed.

(** [lstrip] takes a run of whitespace off the front. *)
Lemma lstrip_split (s : string) :
  exists u, s = u +:+ lstrip s /\ all_chars isspace u = true.
Proof.
  induction s as [|a s (u & E & Hu)]; [by exists ""|]. simpl.
  destruct (isspace a) eqn:Ha.
  - exists (String a u). rewrite str_app_cons, <- E. simpl. by rewrite Ha, Hu.
  - by exists "".
Qed.

Lemma strip_idemp (s : string) : strip (strip s) = strip s.
Proof.
  unfold strip.
  rewrite (lstrip_rstrip_head (lstrip s)) by apply lstrip_head.
  apply rstrip_idemp.
Qed.

Lemma strip_app_space (u s v : string) :
  all_chars isspace u = true -> all_chars isspace v = true ->
  strip (u +:+ s +:+ v) = strip s.
Proof.
  intros Hu Hv. unfold strip. rewrite lstrip_app_space by done.
  destruct (lstrip_split s) as (w & E & Hw).
  destruct (lstrip_split (s +:+ v)) as (w' & E' & Hw').
  destruct (lstrip s) as [|c t] eqn:L.
  - (* [s] is all whitespace, and so is [s +:+ v] *)
    rewrite str_app_nil_r in E. subst w.
    assert (Hsv : all_chars isspace (s +:+ v) = true).
    { clear -Hw Hv. induction s as [|a s IH]; [done|].
      rewrite str_app_cons. simpl in *.
      apply andb_prop in Hw as [-> Hw]. auto. }
    assert (Hl : forall x, all_chars isspace x = true -> lstrip x = "").
    { clear. induction x as [|a x IH]; [done|]. simpl.
      intros [-> Hx]%andb_prop. auto. }
    by rewrite (Hl _ Hsv).
  - assert (Hc : isspace c = false).
    { pose proof (lstrip_head s) as H. by rewrite L in H. }
    assert (lstrip (s +:+ v) = String c t +:+ v) as ->.
    { rewrite E at 1. rewrite str_app_assoc.
      rewrite lstrip_app_space by done.
      rewrite str_app_cons. simpl. by rewrite Hc. }
    by apply rstrip_app_space.
Qed.

End Trimming.

Section Dispatch.

Lemma rstrip_nil_all (t : string) :
  rstrip t = "" -> all_chars isspace t = true.
Proof.
  induction t as [|a t IH]; [done|]. simpl.
  destruct (rstrip t); [|done].
  destruct (isspace a); [|done]. auto.
Qed.

Lemma all_space_lstrip (s : string) :
  all_chars isspace s = true -> lstrip s = "".
Proof.
  induction s as [|a s IH]; [done|]. simpl.
  intros [-> Hs]%andb_prop. auto.
Qed.

Lemma strip_nil_iff (s : string) :
  strip s = "" <-> all_chars isspace s = true.
Proof.
  unfold strip. split.
  - intros H%rstrip_nil_all.
    destruct (lstrip_split s) as (u & E & Hu).
    pose proof (lstrip_head s) as Hh.
    destruct (lstrip s) as [|c t].
    + rewrite str_app_nil_r in E. by subst.
    + simpl in H. by rewrite Hh in H.
  - intros H. by rewrite all_space_lstrip.
Qed.

(** The branch that a successful [parse_line] took. *)
Lemma parse_line_ok_inv l r :
  parse_line l = Ok r ->
  (strip l = "" /\ r = EmptyLine) \/
  (strip l <> "" /\ startswith "!" (strip l) = true /\
   _parse_comment (strip l) = Ok r) \/
  (startswith "!" (strip l) = false /\
   startswith "%" (strip l) && endswith "%" (strip l) = true /\
   _parse_instruction (strip l) = Ok r) \/
  (startswith "!" (strip l) = false /\
   startswith "%" (strip l) && endswith "%" (strip l) = false /\
   startswith "[" (strip l) && endswith "]" (strip l) = true /\
   _parse_header (strip l) = Ok r) \/
  (strip l <> "" /\
   startswith "!" (strip l) = false /\
   startswith "%" (strip l) && endswith "%" (strip l) = false /\
   startswith "[" (strip l) && endswith "]" (strip l) = false /\
   _parse_filter (strip l) = Ok r).
Proof.
  unfold parse_line. intros H. inv_bind H.
  case_bool_decide as Ha; [|done]. injection H as ->.
  case_bool_decide as He; [left; split; congruence|]. right.
  destruct (startswith "!" (strip l)); [by left|]. right.
  destruct (startswith "%" (strip l) && endswith "%" (strip l));
    [by left|]. right.
  destruct (startswith "[" (strip l) && endswith "]" (strip l));
    [by left|]. by right.
Qed.

(** What a failed [parse_line] ran into: the error of the branch taken, or
    the assertion. *)
Lemma parse_line_raise_inv l e :
  parse_line l = Raise e ->
  e = AssertionError \/
  _parse_comment (strip l) = Raise e \/
  _parse_instruction (strip l) = Raise e \/
  _parse_header (strip l) = Raise e \/
  _parse_filter (strip l) = Raise e.
Proof.
  unfold parse_line. intros H.
  destruct (if bool_decide (strip l = "") then _ else _) as [r|e'] eqn:E;
    simpl in H.
  - case_bool_decide; [done|]. injection H as <-. by left.
  - injection H as ->. right.
    case_bool_decide; [done|].
    destruct (startswith "!" (strip l)); [by left|]. right.
    destruct (startswith "%" (strip l) && endswith "%" (strip l));
      [by left|]. right.
    destruct (startswith "[" (strip l) && endswith "]" (strip l));
      [by left|]. by right.
Qed.

Lemma _parse_comment_total t : exists r, _parse_comment t = Ok r.
Proof.
  unfold _parse_comment.
  destruct (re_match false METADATA_REGEXP t) as [m|] eqn:M; [|eauto].
  apply parse_groups_set in M as [[key ->] [value ->]].
  case_bool_decide; simpl; eauto.
Qed.

End Dispatch.

(** X1. [parse_line] returns [EmptyLine] exactly for the lines that hold
    nothing but whitespace. *)
Theorem empty_line_iff_blank (l : string) :
  parse_line l = Ok EmptyLine <-> all_chars isspace l = true.
Proof.
  rewrite <- strip_nil_iff. split.
  - intros H. apply parse_line_ok_inv in H
      as [[H _]|[(_ & _ & H)|[(_ & _ & H)|[(_ & _ & _ & H)|(_ & _ & _ & _ & H)]]]].
    + done.
    + by apply _parse_comment_kind in H as [[? ?]|(? & ? & ?)].
    + by apply _parse_instruction_kind in H as [? ?].
    + by apply _parse_header_kind in H as [? ?].
    + by apply _parse_filter_expression in H as [? _].
  - intros H. unfold parse_line. rewrite H. reflexivity.
Qed.

Lemma empty_line_iff_blank_witness :
  parse_line (String " " (String tab (String newline ""))) = Ok EmptyLine.
Proof. apply empty_line_iff_blank. vm_compute. reflexivity. Defined.

(** X2. Whitespace around a line does not matter: [parse_line] gives the
    same record or the same exception with it and without it. *)
Theorem parse_line_ignores_outer_whitespace (u l v : string) :
  all_chars isspace u = true -> all_chars isspace v = true ->
  parse_line (u +:+ l +:+ v) = parse_line l.
Proof.
  intros Hu Hv. unfold parse_line. by rewrite strip_app_space.
Qed.

Lemma parse_line_ignores_outer_whitespace_witness :
  parse_line (String tab " " +:+ "! Title: x" +:+ String " " (String newline ""))
  = parse_line "! Title: x".
Proof.
  apply parse_line_ignores_outer_whitespace; vm_compute; reflexivity.
Defined.

(** X3. A [Metadata] record is returned only for a line that starts with
    the comment marker, and its key is one of the six keys of
    [METADATA_KEYS]. *)
Theorem metadata_key_is_known (l key value : string) :
  parse_line l = Ok (Metadata key value) ->
  key ∈ METADATA_KEYS /\ startswith "!" (strip l) = true.
Proof.
  intros H. apply parse_line_ok_inv in H
    as [[_ H]|[(_ & Hs & H)|[(_ & _ & H)|[(_ & _ & _ & H)|(_ & _ & _ & _ & H)]]]].
  - done.
  - split; [|done]. unfold _parse_comment in H.
    destruct (re_match false METADATA_REGEXP (strip l)) as [m|]; [|done].
    destruct (group m 1) as [k|]; [|done].
    case_bool_decide as Hk; [|done].
    inv_bind H. by injection H as <- _.
  - by apply _parse_instruction_kind in H as [? ?].
  - by apply _parse_header_kind in H as [? ?].
  - by apply _parse_filter_expression in H as [? _].
Qed.

Lemma metadata_key_is_known_witness :
  "Homepage" ∈ METADATA_KEYS /\
  startswith "!" (strip "! Homepage  :  http://aaa.com/b") = true.
Proof.
  apply (metadata_key_is_known _ "Homepage" "http://aaa.com/b").
  vm_compute. reflexivity.
Defined.

(** X4. Parsing the rendering of a filter record gives the record back. *)
Theorem filter_reparse (l : string) (r : line) :
  parse_line l = Ok r -> is_filter r = true ->
  parse_line (to_string r) = Ok r.
Proof.
  intros H Hf.
  destruct (_parse_filter_expression _ _ (parse_line_filter _ _ H Hf))
    as [_ He].
  assert (to_string r = strip l) as ->
    by (destruct r; simpl in *; congruence).
  unfold parse_line in *. by rewrite strip_idemp.
Qed.

Lemma filter_reparse_witness :
  parse_line
    (to_string (HidingFilter "abc.com,cdf.com##div#ad1" false "div#ad1"
                  ["abc.com"; "cdf.com"]))
  = Ok (HidingFilter "abc.com,cdf.com##div#ad1" false "div#ad1"
          ["abc.com"; "cdf.com"]).
Proof.
  apply (filter_reparse "  abc.com,cdf.com##div#ad1 "); [|reflexivity].
  vm_compute. reflexivity.
Defined.

(** X5. When every line parses, the generator yields the records of the
    lines, one per request and in the order of the lines, and every
    request after the last line raises [StopIteration]. *)
Theorem parse_filterlist_yields_all
    (lines : list string) (rs : list line) (n : nat) :
  Forall2 (fun l r => parse_line l = Ok r) lines rs ->
  next_n (length lines + S n) (parse_filterlist lines)
  = ((Yield <$> rs) ++ replicate (S n) StopIteration, Finished).
Proof.
  intros H. unfold parse_filterlist.
  pose proof (next_n_yields _ _ [] H) as Hy. rewrite app_nil_r in Hy.
  rewrite next_n_add, Hy. simpl. by rewrite next_n_finished.
Qed.

Lemma parse_filterlist_yields_all_witness :
  next_n (length ["! foo"; "! Title: bar"] + 2)
    (parse_filterlist ["! foo"; "! Title: bar"])
  = ((Yield <$> [Comment "foo"; Metadata "Title" "bar"])
     ++ replicate 2 StopIteration, Finished).
Proof.
  apply parse_filterlist_yields_all.
  repeat constructor.
Defined.

(** ** Filter options *)

Section Options.

Lemma contains_app c s t :
  contains c (s +:+ t) = contains c s || contains c t.
Proof.
  induction s as [|a s IH]; [done|]. rewrite str_app_cons. simpl.
  by rewrite IH, orb_assoc.
Qed.

Lemma split1_app sep name value :
  contains sep name = false ->
  split1 sep (name +:+ String sep value) = (name, value).
Proof.
  induction name as [|a name IH].
  - intros _. rewrite str_app_nil_l. simpl. by rewrite Ascii.eqb_refl.
  - rewrite str_app_cons. simpl. intros [Ha Hn]%orb_false_elim.
    by rewrite Ha, IH.
Qed.

Lemma startswith_cons c p a s :
  startswith (String c p) (String a s)
  = if ascii_dec c a then startswith p s else false.
Proof. reflexivity. Qed.

(** [s.startswith(p)] says that [s] is [p] followed by [s[len(p):]]. *)
Lemma startswith_app p :
  forall s, startswith p s = true ->
            s = p +:+ slice_from (String.length p) s.
Proof.
  induction p as [|c p IH]; intros s H.
  - rewrite str_app_nil_l. by destruct s.
  - destruct s as [|a s]; [done|]. rewrite startswith_cons in H.
    destruct (ascii_dec c a) as [<-|]; [|done].
    rewrite str_app_cons. simpl. f_equal. auto.
Qed.

Lemma startswith_tilde o :
  startswith "~" o = true -> o = String "~" (slice_from 1 o).
Proof. apply (startswith_app "~"). Qed.

Lemma split_nonempty sep s : split sep s <> [].
Proof.
  destruct s as [|a s]; [done|]. simpl.
  destruct (Ascii.eqb a sep); [done|]. by destruct (split sep s).
Qed.

Lemma split_app sep s t :
  split sep (s +:+ String sep t) = split sep s ++ split sep t.
Proof.
  induction s as [|a s IH].
  - rewrite str_app_nil_l. simpl. by rewrite Ascii.eqb_refl.
  - rewrite str_app_cons. simpl. rewrite IH.
    destruct (Ascii.eqb a sep); [done|].
    pose proof (split_nonempty sep s). by destruct (split sep s).
Qed.

Lemma split_no_sep sep t : contains sep t = false -> split sep t = [t].
Proof.
  induction t as [|a t IH]; [done|]. simpl.
  intros [Ha Ht]%orb_false_elim. by rewrite Ha, IH.
Qed.

(** The pieces that [split] returns hold no separator. *)
Lemma split_pieces sep s x : x ∈ split sep s -> contains sep x = false.
Proof.
  revert x. induction s as [|a s IH]; intros x; simpl.
  - by intros ->%list_elem_of_singleton.
  - destruct (Ascii.eqb a sep) eqn:Ha.
    + intros [->|H]%elem_of_cons; [done | auto].
    + pose proof (split_nonempty sep s) as Hne.
      destruct (split sep s) as [|h t]; [done|].
      intros [->|H]%elem_of_cons.
      * simpl. rewrite Ha. apply IH. by left.
      * apply IH. by right.
Qed.

Abbreviation names_other name :=
  (fun o : string => forall v, parse_option o <> Ok (name, v)).

Lemma parse_options_loop_lookup options :
  forall parsed_options dict name value,
    parse_options_loop options parsed_options = Ok dict ->
    dict !! name = Some value <->
    (exists os1 o os2,
       options = os1 ++ o :: os2 /\ parse_option o = Ok (name, value) /\
       Forall (names_other name) os2) \/
    (parsed_options !! name = Some value /\
     Forall (names_other name) options).
Proof.
  induction options as [|o options IH]; intros acc dict name value H.
  - injection H as <-. split.
    + intros Hl. right. by split.
    + intros [(os1 & o & os2 & E & _)|[Hl _]]; [|done].
      by destruct os1.
  - simpl in H. inv_bind H. destruct a as [n1 v1]. simpl in H.
    rewrite (IH _ _ name value H). clear IH H. split.
    + intros [(os1 & o' & os2 & -> & Ho & Hf)|[Hl Hf]].
      * left. by exists (o :: os1), o', os2.
      * destruct (decide (n1 = name)) as [->|Hne].
        -- rewrite lookup_insert_eq in Hl. injection Hl as ->.
           left. by exists [], o, options.
        -- rewrite lookup_insert_ne in Hl by done.
           right. split; [done|]. constructor; [|done].
           intros v. rewrite E. congruence.
    + intros [(os1 & o' & os2 & Eo & Ho & Hf)|[Hl Hf]].
      * destruct os1 as [|o1 os1]; simpl in Eo; injection Eo as <- ->.
        -- right. split; [|done].
           rewrite Ho in E. injection E as <- <-.
           by rewrite lookup_insert_eq.
        -- left. by exists os1, o', os2.
      * apply Forall_cons in Hf as [Ho Hf].
        right. split; [|done].
        rewrite lookup_insert_ne; [done|].
        intros <-. by apply (Ho v1).
Qed.

End Options.

(** X6. An option with a value, [name=value]: the name is the text before
    the first [=] and the value is the text after it, split on [|] into a
    list when the name is [domain] or [sitekey]. A [~] in front of the
    name is kept in the name. *)
Theorem parse_option_valued (name value : string) :
  contains "=" name = false ->
  parse_option (name +:+ "=" +:+ value)
  = Ok (name, if bool_decide (name ∈ ["domain"; "sitekey"])
              then VList (split "|" value) else VStr value).
Proof.
  intros Hn. unfold parse_option.
  rewrite contains_app, Hn. simpl.
  change ("=" +:+ value) with (String "=" value).
  rewrite split1_app by done. by case_bool_decide.
Qed.

Lemma parse_option_valued_witness :
  parse_option ("domain" +:+ "=" +:+ "abc.com|def.org")
  = Ok ("domain",
        if bool_decide ("domain" ∈ ["domain"; "sitekey"])
        then VList (split "|" "abc.com|def.org")
        else VStr "abc.com|def.org").
Proof. apply parse_option_valued. reflexivity. Defined.

(** X7. An option without a value, for a name other than [domain] and
    [sitekey]: [~name] gives [False] for [name], and [name] gives
    [True]. *)
Theorem parse_option_flag (name : string) :
  contains "=" name = false ->
  name ∉ ["domain"; "sitekey"] ->
  parse_option ("~" +:+ name) = Ok (name, VBool false) /\
  (startswith "~" name = false -> parse_option name = Ok (name, VBool true)).
Proof.
  intros Hn Hd. unfold parse_option. split.
  - change ("~" +:+ name) with (String "~" name).
    change (contains "=" (String "~" name)) with (contains "=" name).
    assert (startswith "~" (String "~" name) = true) as ->
      by (rewrite startswith_cons; by destruct name).
    change (slice_from 1 (String "~" name)) with name.
    rewrite Hn. by rewrite bool_decide_eq_false_2.
  - intros Ht. rewrite Hn, Ht. by rewrite bool_decide_eq_false_2.
Qed.

Lemma parse_option_flag_witness :
  parse_option ("~" +:+ "match-case") = Ok ("match-case", VBool false) /\
  parse_option "match-case" = Ok ("match-case", VBool true).
Proof.
  assert (Hd : "match-case" ∉ ["domain"; "sitekey"]).
  { intros H. apply elem_of_cons in H as [H|H]; [done|].
    apply elem_of_cons in H as [H|H]; [done|]. by apply elem_of_nil in H. }
  destruct (parse_option_flag "match-case" eq_refl Hd) as [H1 H2].
  split; [exact H1 | exact (H2 eq_refl)].
Defined.

Section OptionFailures.

Lemma parse_option_raises_bare option e :
  parse_option option = Raise e ->
  option ∈ ["domain"; "sitekey"; "~domain"; "~sitekey"].
Proof.
  intros H. unfold parse_option in H.
  destruct (contains "=" option) eqn:Hc.
  { destruct (split1 "=" option). by case_bool_decide. }
  destruct (startswith "~" option) eqn:Ht.
  - apply startswith_tilde in Ht. case_bool_decide as Hd; [|done].
    rewrite Ht.
    apply elem_of_cons in Hd as [->|Hd];
      [|apply elem_of_cons in Hd as [->|Hd];
        [|by apply elem_of_nil in Hd]];
      repeat constructor.
  - case_bool_decide as Hd; [|done].
    apply elem_of_cons in Hd as [->|Hd];
      [|apply elem_of_cons in Hd as [->|Hd];
        [|by apply elem_of_nil in Hd]];
      repeat constructor.
Qed.

End OptionFailures.

(** X8. The only options that fail are [domain] and [sitekey] without a
    value, negated or not. *)
Theorem parse_option_fails_iff (option : string) :
  (exists e, parse_option option = Raise e) <->
  option ∈ ["domain"; "sitekey"; "~domain"; "~sitekey"].
Proof.
  split.
  - intros [e H]. by apply parse_option_raises_bare in H.
  - intros H. exists AttributeError.
    repeat (apply elem_of_cons in H as [->|H]; [vm_compute; reflexivity|]).
    by apply elem_of_nil in H.
Qed.

(** X9. The parsed options hold one entry per name: the value of a name
    is the one given by the last option of the list with that name, and
    every entry comes from an option of the list. *)
Theorem options_last_occurrence_wins
    (text options name : string) (value : option_value)
    (dict : gmap string option_value) :
  _parse_filter_options text options = Ok dict ->
  (dict !! name = Some value <->
   exists os1 o os2,
     split "," options = os1 ++ o :: os2 /\
     parse_option o = Ok (name, value) /\
     Forall (fun o' => forall v, parse_option o' <> Ok (name, v)) os2).
Proof.
  unfold _parse_filter_options. intros H.
  rewrite (parse_options_loop_lookup _ _ _ name value H).
  split; [|by left].
  intros [?|[Hl _]]; [done|]. by rewrite lookup_empty in Hl.
Qed.

Lemma options_last_occurrence_wins_witness :
  exists dict,
    _parse_filter_options "||x.com$third-party,domain=a.com,domain=b.com"
      "third-party,domain=a.com,domain=b.com" = Ok dict /\
    dict !! "domain" = Some (VList ["b.com"]).
Proof.
  exists (<["domain" := VList ["b.com"]]> (<["third-party" := VBool true]> ∅)).
  assert (H : _parse_filter_options
                "||x.com$third-party,domain=a.com,domain=b.com"
                "third-party,domain=a.com,domain=b.com"
              = Ok (<["domain" := VList ["b.com"]]>
                      (<["third-party" := VBool true]> ∅)))
    by (vm_compute; reflexivity).
  split; [exact H|].
  apply (options_last_occurrence_wins _ _ "domain" (VList ["b.com"]) _ H).
  exists ["third-party"; "domain=a.com"], "domain=b.com", [].
  split; [vm_compute; reflexivity|].
  split; [vm_compute; reflexivity | constructor].
Defined.

(** ** The legacy conversion, case by case *)

Section LegacyCases.

Abbreviation with_op := (fun m : match_obj => group_truthy (group m 2) = true).
Abbreviation bare := (fun m : match_obj => group_truthy (group m 2) = false).

Lemma constraint_of_cons m : exists s, constraint_of m = String "[" s.
Proof. unfold constraint_of. rewrite str_app_cons, str_app_nil_l. eauto. Qed.

Lemma join_constraints_truthy ms :
  ms <> [] -> truthy (join (constraint_of <$> ms)) = true.
Proof.
  destruct ms as [|m ms]; [done|]. intros _.
  destruct (constraint_of_cons m) as [s Hs].
  unfold join. rewrite fmap_cons, Hs. simpl.
  destruct (constraint_of <$> ms); [done|]. by rewrite str_app_cons.
Qed.

Lemma filter_bare_nil ms : filter bare ms = [] -> filter with_op ms = ms.
Proof.
  induction ms as [|m ms IH]; [done|]. intros H.
  destruct (group_truthy (group m 2)) eqn:E.
  - rewrite filter_cons_False in H by congruence.
    rewrite filter_cons_True by done. by rewrite IH.
  - by rewrite filter_cons_True in H by done.
Qed.

(** Once a name is held, any further bare rule is an error. *)
Lemma attr_rules_loop_held text ms :
  forall constraints_list id,
    filter bare ms <> [] ->
    attr_rules_loop text ms constraints_list (Some id)
    = Raise (EParse (ParseError text "Duplicate id in attriute rules")).
Proof.
  induction ms as [|m ms IH]; intros cl id Hb; cbn [attr_rules_loop].
  - by rewrite filter_nil in Hb.
  - destruct (group_truthy (group m 2)) eqn:E; [|done].
    rewrite filter_cons_False in Hb by congruence. by apply IH.
Qed.

Lemma attr_rules_loop_two_bare text ms m1 m2 others :
  forall constraints_list,
    Forall (fun m => is_Some (group m 1)) ms ->
    filter bare ms = m1 :: m2 :: others ->
    attr_rules_loop text ms constraints_list None
    = Raise (EParse (ParseError text "Duplicate id in attriute rules")).
Proof.
  induction ms as [|m ms IH]; intros cl Hn Hb; cbn [attr_rules_loop].
  - by rewrite filter_nil in Hb.
  - apply Forall_cons in Hn as [[id Hid] Hn].
    destruct (group_truthy (group m 2)) eqn:E.
    + rewrite filter_cons_False in Hb by congruence. by apply IH.
    + rewrite filter_cons_True in Hb by done. injection Hb as -> Hb.
      rewrite Hid. apply attr_rules_loop_held. by rewrite Hb.
Qed.

End LegacyCases.

(** X10. A legacy attribute list without a bare rule gives the selector
    [tag constraints] (the tag [*] gives no tag), provided that the tag or
    the list of rules is not empty. *)
Theorem legacy_selector_no_bare_rule (text tag rules : string) :
  let ms := finditer false OLD_ATTRS_REGEXP rules in
  let tag' := if bool_decide (tag = "*") then "" else tag in
  filter (fun m => group_truthy (group m 2) = false) ms = [] ->
  tag' <> "" \/ ms <> [] ->
  _tag_and_rules_to_selector text (Some tag) (Some rules)
  = Ok (tag' +:+ join (constraint_of <$> ms)).
Proof.
  intros ms tag' Hb Hne. unfold _tag_and_rules_to_selector. fold ms.
  rewrite attr_rules_loop_no_bare by done.
  rewrite (filter_bare_nil _ Hb). simpl.
  assert (Ht : (if bool_decide (Some tag = Some "*") then Some "" else Some tag)
               = Some tag').
  { unfold tag'. repeat case_bool_decide; simplify_eq; done. }
  rewrite Ht. simpl.
  assert (truthy tag' || truthy (join (constraint_of <$> ms)) = true) as ->.
  { destruct Hne as [Hne|Hne].
    - apply truthy_not_nil in Hne. by rewrite Hne.
    - rewrite (join_constraints_truthy _ Hne). apply orb_true_r. }
  done.
Qed.

Lemma legacy_selector_no_bare_rule_witness :
  _tag_and_rules_to_selector "#*(name=bar)" (Some "*") (Some "(name=bar)")
  = Ok ("" +:+ join (constraint_of <$>
                     finditer false OLD_ATTRS_REGEXP "(name=bar)")).
Proof.
  apply (legacy_selector_no_bare_rule "#*(name=bar)" "*" "(name=bar)").
  - vm_compute. reflexivity.
  - right. vm_compute. discriminate.
Defined.

(** X11. A legacy attribute list with two or more bare rules is rejected
    with the error of a duplicate id, which is built as
    [ParseError(text, reason)]. *)
Theorem legacy_selector_two_bare_rules
    (text tag rules : string) (m1 m2 : match_obj) (others : list match_obj) :
  filter (fun m => group_truthy (group m 2) = false)
    (finditer false OLD_ATTRS_REGEXP rules) = m1 :: m2 :: others ->
  _tag_and_rules_to_selector text (Some tag) (Some rules)
  = Raise (EParse (ParseError text "Duplicate id in attriute rules")).
Proof.
  intros Hb. unfold _tag_and_rules_to_selector.
  rewrite (attr_rules_loop_two_bare _ _ m1 m2 others); [done| |done].
  apply Forall_forall. intros m Hm.
  apply old_attrs_name in Hm as (name & -> & _). eauto.
Qed.

Lemma legacy_selector_two_bare_rules_witness :
  _tag_and_rules_to_selector "abc.com#div(foo)(bar)" (Some "div")
    (Some "(foo)(bar)")
  = Raise (EParse (ParseError "abc.com#div(foo)(bar)"
                     "Duplicate id in attriute rules")).
Proof.
  apply (legacy_selector_two_bare_rules _ "div" "(foo)(bar)"
           {| m_start := 0; m_end := 5; m_groups := {[ 1 := "foo" ]} |}
           {| m_start := 5; m_end := 10; m_groups := {[ 1 := "bar" ]} |} []).
  vm_compute. reflexivity.
Defined.

(** ** The shape of the lines that parse *)

Section Shapes.

Lemma matches_Alt_inv icase r1 r2 st st' :
  matches icase (Alt r1 r2) st st' ->
  matches icase r1 st st' \/ matches icase r2 st st'.
Proof. inversion 1; subst; eauto. Qed.

Lemma matches_Eps_inv icase st st' : matches icase Eps st st' -> st' = st.
Proof. by inversion 1. Qed.

Lemma matches_Bol_inv icase st st' : matches icase Bol st st' -> st' = st.
Proof. by inversion 1. Qed.

Lemma matches_Eol_inv icase st st' :
  matches icase Eol st st' ->
  st' = st /\ (rest st = "" \/ rest st = String newline "").
Proof. by inversion 1. Qed.

Lemma matches_groupless icase r st st' :
  matches icase r st st' -> groupless r = true -> caps st' = caps st.
Proof.
  induction 1 as
    [ st | c a s' st R E | a s' st R E | p a s' st R E
    | r1 r2 st st1 st2 _ IH1 _ IH2 | r1 r2 st st' _ IH | r1 r2 st st' _ IH
    | g r st | g r st st1 st2 _ IH1 _ IH2 | n r st st1 _ IH
    | st E | st E ]; simpl; intros G; try done.
  - apply andb_prop in G as [G1 G2]. by rewrite IH2, IH1.
  - apply andb_prop in G as [G1 G2]. auto.
  - apply andb_prop in G as [G1 G2]. auto.
  - by rewrite IH2, IH1.
Qed.

(** What a match of a part without groups reads and leaves. *)
Lemma matches_plain icase r st st' :
  matches icase r st st' -> groupless r = true ->
  exists w, rest st = w +:+ rest st' /\ caps st' = caps st /\
            (nonnull r = true -> w <> "").
Proof.
  intros H G. destruct (matches_consumes _ _ _ _ H) as (w & E & _).
  exists w. split; [done|]. split; [by eapply matches_groupless|].
  intros N. apply matches_length in H as [_ H]. specialize (H N).
  intros ->. rewrite E, str_app_nil_l in H. lia.
Qed.

(** What a group around a part without groups captures. *)
Lemma matches_Group_plain icase n r st st' :
  matches icase (Group n r) st st' -> groupless r = true ->
  exists w, rest st = w +:+ rest st' /\
            caps st' = <[n := w]> (caps st) /\
            (nonnull r = true -> w <> "").
Proof.
  intros (st1 & H & ->)%matches_Group_inv G.
  destruct (matches_plain _ _ _ _ H G) as (w & E & C & N).
  exists w. simpl. by rewrite (consumed_app _ _ _ E), C.
Qed.

Lemma chr_eq_icase_bracket_l a : chr_eq true "[" a = true -> a = "["%char.
Proof.
  destruct a as [[] [] [] [] [] [] [] []]; vm_compute; congruence.
Qed.

Lemma chr_eq_icase_bracket_r a : chr_eq true "]" a = true -> a = "]"%char.
Proof.
  destruct a as [[] [] [] [] [] [] [] []]; vm_compute; congruence.
Qed.

Lemma header_match c m :
  re_match true HEADER_REGEXP c = Some m ->
  exists version tail,
    c = "[" +:+ version +:+ "]" +:+ tail /\ group m 1 = Some version.
Proof.
  intros (st' & H & ->)%match_at_matches. unfold HEADER_REGEXP in H.
  apply matches_Cat_inv in H as (st1 & H1 & H).
  apply matches_Chr_inv in H1 as (a & s1 & R1 & E1 & ->).
  apply chr_eq_icase_bracket_l in E1 as ->.
  apply matches_Cat_inv in H as (st2 & H2 & H3).
  apply matches_Group_inv in H2 as (st3 & H2 & ->).
  destruct (matches_consumes _ _ _ _ H2) as (v & Ev & _).
  pose proof (consumed_app _ _ _ Ev) as Hc.
  apply matches_Chr_inv in H3 as (b & s3 & R3 & E3 & ->).
  apply chr_eq_icase_bracket_r in E3 as ->.
  exists v, s3. unfold group. simpl in *.
  rewrite lookup_insert_eq, Hc.
  split; [|done]. by rewrite R1, Ev, R3, !str_app_cons.
Qed.

Lemma rstrip_strip l : rstrip (strip l) = strip l.
Proof. unfold strip. apply rstrip_idemp. Qed.

Lemma rstrip_suffix a :
  forall b, rstrip (a +:+ b) = a +:+ b -> rstrip b = b.
Proof.
  induction a as [|c a IH]; intros b; [done|].
  rewrite str_app_cons. simpl.
  destruct (rstrip (a +:+ b)) as [|x y] eqn:R.
  - destruct (isspace c); [done|]. intros [= H].
    symmetry in H. destruct a; [|done]. rewrite str_app_nil_l in H.
    by subst.
  - intros [= H]. apply IH. congruence.
Qed.

Lemma remove_blank_eq (u t : string) (x y : string) :
  remove " " (x +:+ t +:+ y) = remove " " (x +:+ u +:+ t +:+ y) ->
  all_chars (Ascii.eqb " ") u = true.
Proof.
  rewrite !remove_app. intros H%str_app_inv_head.
  apply (f_equal String.length) in H. rewrite !str_length_app in H.
  apply remove_nil_all, length_zero. lia.
Qed.

End Shapes.

Section Exact.

(** A trimmed line has no tail that the assertion of [parse_line] could
    miss. *)
Lemma no_tail l x tail :
  strip l = x +:+ tail ->
  remove " " x = remove " " (strip l) ->
  tail = "".
Proof.
  intros E H. rewrite E, remove_app in H.
  apply (f_equal String.length) in H. rewrite str_length_app in H.
  apply (strip_no_trailing_space l x tail E).
  apply all_space_isspace, remove_nil_all, length_zero. lia.
Qed.

Lemma parse_line_header l version :
  parse_line l = Ok (Header version) ->
  _parse_header (strip l) = Ok (Header version).
Proof.
  intros H. apply parse_line_ok_inv in H
    as [[_ H]|[(_ & _ & H)|[(_ & _ & H)|[(_ & _ & _ & H)|(_ & _ & _ & _ & H)]]]].
  - done.
  - by apply _parse_comment_kind in H as [[? ?]|(? & ? & ?)].
  - by apply _parse_instruction_kind in H as [? ?].
  - done.
  - by apply _parse_filter_expression in H as [? _].
Qed.

Lemma parse_line_comment l r :
  parse_line l = Ok r ->
  (exists text, r = Comment text) \/ (exists key value, r = Metadata key value) ->
  startswith "!" (strip l) = true /\ _parse_comment (strip l) = Ok r.
Proof.
  intros H Hr. apply parse_line_ok_inv in H
    as [[_ H]|[(_ & Hs & H)|[(_ & _ & H)|[(_ & _ & _ & H)|(_ & _ & _ & _ & H)]]]].
  - by destruct Hr as [[? ?]|(? & ? & ?)]; subst.
  - done.
  - apply _parse_instruction_kind in H as [? ->].
    by destruct Hr as [[? ?]|(? & ? & ?)].
  - apply _parse_header_kind in H as [? ->].
    by destruct Hr as [[? ?]|(? & ? & ?)].
  - apply _parse_filter_expression in H as [H _].
    by destruct Hr as [[? ?]|(? & ? & ?)]; subst.
Qed.

End Exact.

(** X12. A line that parses to a [Header] is, once trimmed, exactly the
    version between brackets: nothing comes before the opening bracket or
    after the closing one. *)
Theorem header_line_exact (l version : string) :
  parse_line l = Ok (Header version) ->
  strip l = "[" +:+ version +:+ "]".
Proof.
  intros H. pose proof (parse_line_assert _ _ H) as HA.
  apply parse_line_header in H. unfold _parse_header in H.
  destruct (re_match true HEADER_REGEXP (strip l)) as [m|] eqn:M; [|done].
  inv_bind H. injection H as ->.
  apply header_match in M as (v & tail & Ec & Hg).
  rewrite Hg in E. injection E as ->. simpl in HA.
  assert (tail = "") as ->.
  { apply (no_tail l ("[" +:+ version +:+ "]") tail); [|done].
    by rewrite Ec, !str_app_assoc. }
  by rewrite Ec, str_app_nil_r.
Qed.

Lemma header_line_exact_witness :
  strip "  [Adblock Plus 1.1] " = "[" +:+ "Adblock Plus 1.1" +:+ "]".
Proof. apply header_line_exact. vm_compute. reflexivity. Defined.

(** X13. A line that parses to a [Comment] is, once trimmed, the marker,
    blanks (U+0020 only, possibly none) and the text; the text has no
    whitespace at either end. *)
Theorem comment_line_exact (l text : string) :
  parse_line l = Ok (Comment text) ->
  exists blanks,
    strip l = "!" +:+ blanks +:+ text /\
    all_chars (Ascii.eqb " ") blanks = true /\
    strip text = text.
Proof.
  intros H. pose proof (parse_line_assert _ _ H) as HA.
  apply parse_line_comment in H as [Hs H]; [|eauto].
  pose proof (rstrip_strip l) as Hrs.
  remember (strip l) as c eqn:Hc. clear Hc l.
  assert (Ht : text = strip (slice_from 1 c)).
  { unfold _parse_comment in H.
    destruct (re_match false METADATA_REGEXP c) as [m|];
      [|by injection H].
    destruct (group m 1) as [k|]; [|by injection H].
    case_bool_decide; [|by injection H].
    inv_bind H. done. }
  apply (startswith_app "!") in Hs.
  change (String.length "!") with 1 in Hs.
  remember (slice_from 1 c) as body eqn:Hb. clear Hb H. subst c.
  destruct (lstrip_split body) as (u & Eb & Hu).
  assert (Hr : rstrip (lstrip body) = lstrip body).
  { rewrite Eb, <- str_app_assoc in Hrs. by apply rstrip_suffix in Hrs. }
  assert (Etext : text = lstrip body) by (rewrite Ht; exact Hr).
  exists u. split_and!.
  - rewrite Eb at 1. by rewrite Etext.
  - simpl in HA. rewrite Eb, <- Etext in HA.
    change ("! " +:+ text) with ("!" +:+ " " +:+ text) in HA.
    rewrite !remove_app in HA.
    apply (f_equal String.length) in HA. simpl in HA.
    rewrite !str_length_app in HA. simpl in HA.
    apply remove_nil_all, length_zero. lia.
  - rewrite Ht. apply strip_idemp.
Qed.

Lemma comment_line_exact_witness :
  exists blanks,
    strip " !  Block foo " = "!" +:+ blanks +:+ "Block foo" /\
    all_chars (Ascii.eqb " ") blanks = true /\
    strip "Block foo" = "Block foo".
Proof. apply comment_line_exact. vm_compute. reflexivity. Defined.

Section BlockingShape.

Lemma slice_split k : forall s, s = slice_to k s +:+ slice_from k s.
Proof.
  induction k as [|k IH]; intros [|a s]; try done.
  simpl. rewrite str_app_cons. f_equal. apply IH.
Qed.

(** [search] returns the match at some position of the text. *)
Lemma search_from_spec icase r :
  forall s p m,
    search_from icase r p s = Some m ->
    exists k, match_at icase r (p + k) (slice_from k s) = Some m.
Proof.
  induction s as [|a s IH]; intros p m; simpl;
    destruct (match_at icase r p _) as [m'|] eqn:E; try done.
  - intros [= ->]. exists 0. by rewrite Nat.add_0_r.
  - intros [= ->]. exists 0. by rewrite Nat.add_0_r.
  - intros (k & H)%IH. exists (S k). simpl.
    by replace (p + S k) with (S p + k) by lia.
Qed.

Lemma match_at_start icase r p s m :
  match_at icase r p s = Some m -> m_start m = p.
Proof.
  unfold match_at. destruct (rmatch icase r _ Some); [|done].
  by intros [= <-].
Qed.

Lemma bfilter_match p s m :
  match_at false BFILTER_OPTIONS_REGEXP p s = Some m ->
  exists options tail,
    s = "$" +:+ options +:+ tail /\ group m 1 = Some options /\
    (tail = "" \/ tail = String newline "").
Proof.
  intros (st' & H & ->)%match_at_matches.
  unfold BFILTER_OPTIONS_REGEXP in H.
  apply matches_Cat_inv in H as (st1 & H1 & H).
  apply matches_Chr_inv in H1 as (a & s1 & R1 & E1 & ->).
  apply Ascii.eqb_eq in E1 as <-.
  apply matches_Cat_inv in H as (st2 & H2 & H3).
  apply matches_Group_plain in H2 as (o & Eo & Co & _); [|reflexivity].
  apply matches_Eol_inv in H3 as [-> Ht].
  exists o, (rest st2). unfold group. simpl in *.
  rewrite Co, lookup_insert_eq. split_and!; [|done|done].
  by rewrite R1, Eo, str_app_cons.
Qed.

Lemma _parse_filter_blocking c e x o p :
  _parse_filter c = Ok (BlockingFilter e x o p) ->
  _parse_blocking_filter c = Ok (BlockingFilter e x o p).
Proof.
  unfold _parse_filter.
  destruct (if contains "#" c then _ else _) as [m|]; [|done].
  unfold _parse_hiding_filter. intros H. inv_bind H. inv_bind H. done.
Qed.

End BlockingShape.

(** X14. A line that parses to a [BlockingFilter] is, once trimmed, the
    prefix [@@] when the filter is an exception (and only then), the
    pattern and, when there are options, [$] and the option list from
    which the options were parsed; without an option list the options are
    empty. *)
Theorem blocking_filter_shape
    (l expression pattern : string) (is_exception : bool)
    (options : gmap string option_value) :
  parse_line l = Ok (BlockingFilter expression is_exception options pattern)
  ->
  is_exception = startswith "@@" (strip l) /\
  ((options = ∅ /\
    strip l = (if is_exception then "@@" else "") +:+ pattern) \/
   (exists option_list,
      strip l = (if is_exception then "@@" else "") +:+ pattern
                +:+ "$" +:+ option_list /\
      _parse_filter_options (pattern +:+ "$" +:+ option_list) option_list
      = Ok options)).
Proof.
  intros H. apply parse_line_filter in H; [|done].
  apply _parse_filter_blocking in H.
  unfold _parse_blocking_filter in H.
  remember (strip l) as c eqn:Hc.
  set (x := startswith "@@" c) in *.
  set (text' := if x then slice_from 2 c else c) in *.
  assert (Hpre : c = (if x then "@@" else "") +:+ text').
  { unfold text', x. destruct (startswith "@@" c) eqn:Hs; [|done].
    by apply (startswith_app "@@") in Hs. }
  destruct (if contains "$" text' then _ else _) as [m|] eqn:M.
  - inv_bind H. inv_bind H. injection H as _ <- <- <-.
    split; [done|]. right.
    destruct (contains "$" text'); [|done].
    apply search_from_spec in M as (k & M). simpl in M.
    pose proof (match_at_start _ _ _ _ _ M) as ->.
    apply bfilter_match in M as (o & tail & Es & Hg & Ht).
    rewrite Hg in E. injection E as <-.
    assert (Htext : text' = slice_to k text' +:+ "$" +:+ o +:+ tail).
    { rewrite (slice_split k text') at 1. by rewrite Es. }
    assert (tail = "") as ->.
    { apply (strip_no_trailing_space l
               ((if x then "@@" else "") +:+ slice_to k text' +:+ "$" +:+ o)
               tail).
      - rewrite <- Hc, Hpre. rewrite Htext at 1.
        by rewrite !str_app_assoc.
      - destruct Ht as [->| ->]; reflexivity. }
    rewrite str_app_nil_r in Htext.
    exists o. split; [|exact E0].
    rewrite Hpre at 1. by rewrite Htext at 1.
  - injection H as _ <- <- <-. split; [done|]. by left.
Qed.

Lemma blocking_filter_shape_witness :
  true = startswith "@@" (strip " @@||example.com/good.gif$image ") /\
  (({[ "image" := VBool true ]} : gmap string option_value) = ∅ /\
   strip " @@||example.com/good.gif$image "
   = "@@" +:+ "||example.com/good.gif" \/
   exists option_list,
     strip " @@||example.com/good.gif$image "
     = "@@" +:+ "||example.com/good.gif" +:+ "$" +:+ option_list /\
     _parse_filter_options
       ("||example.com/good.gif" +:+ "$" +:+ option_list) option_list
     = Ok {[ "image" := VBool true ]}).
Proof.
  apply (blocking_filter_shape " @@||example.com/good.gif$image "
           "@@||example.com/good.gif$image" "||example.com/good.gif" true
           {[ "image" := VBool true ]}).
  vm_compute. reflexivity.
Defined.

Section HidingShape.

(** What a match of [HFILTER_REGEXP] looks like: the domain list, [#],
    the exception marker, then either a tag with its rules or [#] and a
    selector. *)
Lemma hfilter_match c m :
  re_match false HFILTER_REGEXP c = Some m ->
  exists domain_list marker body tail,
    c = domain_list +:+ "#" +:+ marker +:+ body +:+ tail /\
    (tail = "" \/ tail = String newline "") /\
    all_chars domain_char domain_list = true /\
    group m 1 = Some domain_list /\
    ((marker = "" /\ group m 2 = None) \/
     (marker = "@" /\ group m 2 = Some "@")) /\
    ((exists tag rules,
        body = tag +:+ rules /\ tag <> "" /\
        group m 3 = Some tag /\ group m 4 = Some rules /\
        group m 5 = None) \/
     (exists selector,
        body = "#" +:+ selector /\ selector <> "" /\
        group m 5 = Some selector)).
Proof.
  intros (st' & H & ->)%match_at_matches. unfold HFILTER_REGEXP in H.
  apply matches_Cat_inv in H as (st1 & HB & H).
  apply matches_Bol_inv in HB as ->.
  apply matches_Cat_inv in H as (st2 & H1 & H).
  apply matches_Group_inv in H1 as (sta & H1 & ->).
  apply matches_Star_Class in H1 as (dl & E1 & A1 & C1).
  pose proof (consumed_app _ _ _ E1) as K1. simpl in E1, C1.
  apply matches_Cat_inv in H as (st3 & H2 & H).
  apply matches_Chr_inv in H2 as (a & s3 & R2 & E2 & ->).
  apply Ascii.eqb_eq in E2 as <-. simpl in R2.
  apply matches_Cat_inv in H as (st4 & H3 & H).
  apply matches_Cat_inv in H as (st5 & H4 & H5).
  apply matches_Eol_inv in H5 as [-> Ht].
  assert (Hm : exists marker,
            s3 = marker +:+ rest st4 /\
            ((marker = "" /\ caps st4 = <[1 := dl]> ∅) \/
             (marker = "@" /\ caps st4 = <[2 := "@"]> (<[1 := dl]> ∅)))).
  { apply matches_Alt_inv in H3 as [H3|H3].
    - apply matches_Group_inv in H3 as (stb & H3 & ->).
      apply matches_Chr_inv in H3 as (b & s4 & R3 & E3 & ->).
      apply Ascii.eqb_eq in E3 as <-. simpl in R3.
      exists "@". split; [by rewrite R3|]. right. split; [done|].
      simpl. rewrite C1, K1.
      assert (consumed
                (advance (capture 1 {| pos := 0; rest := c; caps := ∅ |} sta)
                   s3)
                (advance
                   (advance
                      (capture 1 {| pos := 0; rest := c; caps := ∅ |} sta) s3)
                   s4) = "@") as ->; [|done].
      apply consumed_app. simpl. by rewrite R3.
    - apply matches_Eps_inv in H3 as ->.
      exists "". split; [done|]. left. split; [done|].
      simpl. by rewrite C1, K1. }
  destruct Hm as (marker & Em & Hmarker).
  assert (Hb : exists body,
            rest st4 = body +:+ rest st5 /\
            ((exists tag rules,
                body = tag +:+ rules /\ tag <> "" /\
                caps st5 = <[4 := rules]> (<[3 := tag]> (caps st4))) \/
             (exists selector,
                body = "#" +:+ selector /\ selector <> "" /\
                caps st5 = <[5 := selector]> (caps st4)))).
  { apply matches_Alt_inv in H4 as [H4|H4].
    - apply matches_Cat_inv in H4 as (stc & H4 & H6).
      apply matches_Group_plain in H4 as (tag & Et & Ct & Nt);
        [|reflexivity].
      apply matches_Group_plain in H6 as (rules & Er & Cr & _);
        [|reflexivity].
      exists (tag +:+ rules). split; [by rewrite Et, Er, str_app_assoc|].
      left. exists tag, rules. split_and!; [done|by apply Nt|].
      by rewrite Cr, Ct.
    - apply matches_Cat_inv in H4 as (stc & H4 & H6).
      apply matches_Chr_inv in H4 as (b & s5 & R4 & E4 & ->).
      apply Ascii.eqb_eq in E4 as <-.
      apply matches_Group_plain in H6 as (sel & Es & Cs & Ns);
        [|reflexivity].
      simpl in Es, Cs.
      exists ("#" +:+ sel). split; [by rewrite R4, Es, str_app_cons|].
      right. exists sel. split_and!; [done|by apply Ns|done]. }
  destruct Hb as (body & Eb & Hbody).
  exists dl, marker, body, (rest st5).
  split_and!.
  - rewrite E1, R2, Em, Eb. reflexivity.
  - done.
  - done.
  - destruct Hmarker as [[_ Cm]|[_ Cm]];
      destruct Hbody as [(tag & rules & _ & _ & Cb)|(sel & _ & _ & Cb)];
      unfold group; simpl; rewrite Cb, Cm;
      repeat (rewrite lookup_insert_ne by done);
      by rewrite lookup_insert_eq.
  - destruct Hmarker as [[-> Cm]|[-> Cm]]; [left|right]; (split; [done|]);
      destruct Hbody as [(tag & rules & _ & _ & Cb)|(sel & _ & _ & Cb)];
      unfold group; simpl; rewrite Cb, Cm;
      repeat (rewrite lookup_insert_ne by done);
      by rewrite ?lookup_insert_eq, ?lookup_empty.
  - destruct Hbody as [(tag & rules & -> & Nt & Cb)|(sel & -> & Ns & Cb)];
      [left; exists tag, rules | right; exists sel];
      (split_and!; [done|done|..]);
      destruct Hmarker as [[_ Cm]|[_ Cm]];
      unfold group; simpl; rewrite Cb, Cm;
      repeat (rewrite lookup_insert_ne by done);
      by rewrite ?lookup_insert_eq, ?lookup_empty.
Qed.

Lemma _parse_filter_hiding c e x sel d :
  _parse_filter c = Ok (HidingFilter e x sel d) ->
  exists m, re_match false HFILTER_REGEXP c = Some m /\
            _parse_hiding_filter c m = Ok (HidingFilter e x sel d).
Proof.
  unfold _parse_filter.
  destruct (contains "#" c).
  - destruct (re_match false HFILTER_REGEXP c) as [m|]; [eauto|].
    unfold _parse_blocking_filter.
    destruct (if contains "$" _ then _ else _); [|done].
    intros H. inv_bind H. inv_bind H. done.
  - unfold _parse_blocking_filter.
    destruct (if contains "$" _ then _ else _); [|done].
    intros H. inv_bind H. inv_bind H. done.
Qed.

End HidingShape.

(** X15. A line that parses to a [HidingFilter] is, once trimmed, a list
    of domains without any of the characters [/], [*], [|], [@], [!] and
    the double quote, then [#], then
    [@] when the filter is an exception (and only then), then either [#]
    and the selector, or a tag and attribute rules that the legacy
    conversion turns into the selector. The domains of the record are the
    non-empty pieces of the list of domains between commas. *)
Theorem hiding_filter_shape
    (l expression selector : string) (is_exception : bool)
    (domains : list string) :
  parse_line l = Ok (HidingFilter expression is_exception selector domains)
  ->
  exists domain_list body,
    strip l = domain_list +:+ "#" +:+ (if is_exception then "@" else "")
              +:+ body /\
    all_chars domain_char domain_list = true /\
    domains = filter (fun d => d <> "") (split "," domain_list) /\
    (body = "#" +:+ selector \/
     exists tag rules,
       body = tag +:+ rules /\ tag <> "" /\
       _tag_and_rules_to_selector (strip l) (Some tag) (Some rules)
       = Ok selector).
Proof.
  intros H. apply parse_line_filter in H; [|done].
  apply _parse_filter_hiding in H as (m & M & H).
  apply hfilter_match in M
    as (dl & marker & body & tail & Ec & Ht & Hdl & G1 & G2 & G3).
  assert (tail = "") as ->.
  { apply (strip_no_trailing_space l
             (dl +:+ "#" +:+ marker +:+ body) tail).
    - by rewrite Ec, !str_app_assoc.
    - destruct Ht as [->| ->]; reflexivity. }
  rewrite str_app_nil_r in Ec.
  unfold _parse_hiding_filter in H. rewrite G1 in H. simpl in H.
  inv_bind H. injection H as _ <- <- <-.
  exists dl, body. split_and!.
  - rewrite Ec. by destruct G2 as [[-> ->]|[-> ->]].
  - done.
  - apply list_filter_iff. intros d. by rewrite truthy_not_nil.
  - destruct G3 as [(tag & rules & -> & Nt & G3 & G4 & G5)
                   |(sel & -> & Ns & G5)].
    + right. exists tag, rules. rewrite G5, G3, G4 in E. by split_and!.
    + left. rewrite G5 in E. destruct sel; [done|]. by injection E as <-.
Qed.

Lemma hiding_filter_shape_witness :
  exists domain_list body,
    strip "abc.com,cdf.com#@#div#ad1 "
    = domain_list +:+ "#" +:+ "@" +:+ body /\
    all_chars domain_char domain_list = true /\
    ["abc.com"; "cdf.com"]
    = filter (fun d => d <> "") (split "," domain_list) /\
    (body = "#" +:+ "div#ad1" \/
     exists tag rules,
       body = tag +:+ rules /\ tag <> "" /\
       _tag_and_rules_to_selector (strip "abc.com,cdf.com#@#div#ad1 ")
         (Some tag) (Some rules)
       = Ok "div#ad1").
Proof.
  apply (hiding_filter_shape "abc.com,cdf.com#@#div#ad1 "
           "abc.com,cdf.com#@#div#ad1" "div#ad1" true
           ["abc.com"; "cdf.com"]).
  vm_compute. reflexivity.
Defined.

(** ** The exceptions of [parse_line] *)

Section Exceptions.

Lemma _parse_instruction_raises c e :
  _parse_instruction c = Raise e ->
  e = EParse (ParseError "Unrecognized instruction" c).
Proof.
  unfold _parse_instruction.
  destruct (re_match false INCLUDE_REGEXP c) as [m|] eqn:M;
    [|by intros [= <-]].
  by apply parse_groups_set in M as [target ->].
Qed.

Lemma _parse_header_raises c e :
  _parse_header c = Raise e ->
  e = EParse (ParseError "Malformed header" c).
Proof.
  unfold _parse_header.
  destruct (re_match true HEADER_REGEXP c) as [m|] eqn:M;
    [|by intros [= <-]].
  by apply parse_groups_set in M as [version ->].
Qed.

Lemma attr_rules_loop_raises text ms :
  forall constraints_list class_or_id e,
    attr_rules_loop text ms constraints_list class_or_id = Raise e ->
    e = EParse (ParseError text "Duplicate id in attriute rules").
Proof.
  induction ms as [|m ms IH]; intros cl coi e; cbn [attr_rules_loop];
    [done|].
  destruct (group_truthy (group m 2)); [apply IH|].
  destruct coi; [by intros [= <-] | apply IH].
Qed.

Lemma _tag_and_rules_to_selector_raises text tag rules e :
  _tag_and_rules_to_selector text (Some tag) (Some rules) = Raise e ->
  e = EParse (ParseError text "Duplicate id in attriute rules") \/
  e = EParse (ParseError text "Filter matches everything").
Proof.
  unfold _tag_and_rules_to_selector.
  destruct (attr_rules_loop text _ [] None) as [[cl coi]|e'] eqn:L; simpl.
  - destruct (group_truthy coi); [done|].
    case_bool_decide; simpl.
    + destruct (truthy (join cl)); [done|]. intros [= <-]. by right.
    + destruct (truthy tag || truthy (join cl)); [done|].
      intros [= <-]. by right.
  - intros [= <-]. left. by apply attr_rules_loop_raises in L.
Qed.

Lemma parse_options_loop_raises options :
  forall parsed_options e,
    parse_options_loop options parsed_options = Raise e ->
    exists token,
      token ∈ options /\
      token ∈ ["domain"; "sitekey"; "~domain"; "~sitekey"].
Proof.
  induction options as [|o options IH]; intros acc e; simpl; [done|].
  destruct (parse_option o) as [nv|e'] eqn:E; simpl.
  - intros (token & Hin & Ht)%IH. exists token. split; [by right | done].
  - intros _. exists o. split; [by left|].
    by apply parse_option_raises_bare in E.
Qed.

(** The option segment that [_parse_blocking_filter] finds. *)
Lemma bfilter_search text' m :
  re_search false BFILTER_OPTIONS_REGEXP text' = Some m ->
  exists option_list tail,
    text' = slice_to (m_start m) text' +:+ "$" +:+ option_list +:+ tail /\
    group m 1 = Some option_list /\
    (tail = "" \/ tail = String newline "").
Proof.
  intros (k & M)%search_from_spec. simpl in M.
  pose proof (match_at_start _ _ _ _ _ M) as ->.
  apply bfilter_match in M as (o & tail & Es & Hg & Ht).
  exists o, tail. split_and!; [|done|done].
  rewrite (slice_split k text') at 1. by rewrite Es.
Qed.

End Exceptions.

(** X16. The exceptions that [parse_line] can raise: the two parse errors
    of instructions and headers, built as [ParseError(reason, line)]; the
    two parse errors of legacy hiding filters, built as
    [ParseError(line, reason)]; [AssertionError]; and [AttributeError].
    The line in a parse error is the trimmed line. *)
Theorem parse_line_exceptions (l : string) (e : exn) :
  parse_line l = Raise e ->
  e = AssertionError \/ e = AttributeError \/
  e = EParse (ParseError "Unrecognized instruction" (strip l)) \/
  e = EParse (ParseError "Malformed header" (strip l)) \/
  e = EParse (ParseError (strip l) "Duplicate id in attriute rules") \/
  e = EParse (ParseError (strip l) "Filter matches everything").
Proof.
  intros H. apply parse_line_raise_inv in H as [->|[H|[H|[H|H]]]].
  - by left.
  - destruct (_parse_comment_total (strip l)) as [r Hr]. congruence.
  - apply _parse_instruction_raises in H. tauto.
  - apply _parse_header_raises in H. tauto.
  - unfold _parse_filter in H.
    destruct (if contains "#" (strip l) then _ else _) as [m|] eqn:M.
    + destruct (contains "#" (strip l)); [|done].
      apply hfilter_match in M
        as (dl & marker & body & tail & _ & _ & _ & G1 & _ & G3).
      unfold _parse_hiding_filter in H. rewrite G1 in H. simpl in H.
      destruct G3 as [(tag & rules & _ & _ & G3 & G4 & G5)
                     |(sel & _ & Ns & G5)].
      * rewrite G5, G3, G4 in H.
        destruct (_tag_and_rules_to_selector _ _ _) as [s|e'] eqn:T;
          [done|]. injection H as ->.
        apply _tag_and_rules_to_selector_raises in T. tauto.
      * rewrite G5 in H. by destruct sel.
    + unfold _parse_blocking_filter in H.
      destruct (if contains "$" _ then _ else _) as [m|]; [|done].
      destruct (attr_of (group m 1)) as [o|e'] eqn:A; simpl in H.
      * destruct (_parse_filter_options _ o) as [d|e''] eqn:O;
          simpl in H; [done|]. injection H as ->.
        unfold _parse_filter_options in O.
        destruct (parse_options_loop_raises _ _ _ O) as (t & Hin & _).
        right. left.
        clear -O. revert O. generalize (∅ : gmap string option_value).
        induction (split "," o) as [|x xs IH]; intros acc; simpl; [done|].
        destruct (parse_option x) as [nv|e'] eqn:E; simpl; [apply IH|].
        intros [= <-]. by apply parse_option_raises in E.
      * injection H as ->. destruct (group m 1); [done|].
        injection A as <-. tauto.
Qed.

Lemma parse_line_exceptions_witness :
  let e := EParse (ParseError "abc.com#div(foo)(bar)"
                     "Duplicate id in attriute rules") in
  e = AssertionError \/ e = AttributeError \/
  e = EParse (ParseError "Unrecognized instruction"
                (strip " abc.com#div(foo)(bar)")) \/
  e = EParse (ParseError "Malformed header"
                (strip " abc.com#div(foo)(bar)")) \/
  e = EParse (ParseError (strip " abc.com#div(foo)(bar)")
                "Duplicate id in attriute rules") \/
  e = EParse (ParseError (strip " abc.com#div(foo)(bar)")
                "Filter matches everything").
Proof.
  apply (parse_line_exceptions " abc.com#div(foo)(bar)").
  vm_compute. reflexivity.
Defined.

(** X17. [parse_line] raises [AttributeError] only for a blocking filter
    whose option list, the text after the [$] that starts the options,
    holds [domain] or [sitekey] without a value, negated or not. *)
Theorem attribute_error_only_bare_option (l : string) :
  parse_line l = Raise AttributeError ->
  exists before option_list token,
    strip l = before +:+ "$" +:+ option_list /\
    token ∈ split "," option_list /\
    token ∈ ["domain"; "sitekey"; "~domain"; "~sitekey"].
Proof.
  intros H. apply parse_line_raise_inv in H as [H|[H|[H|[H|H]]]].
  - done.
  - destruct (_parse_comment_total (strip l)) as [r Hr]. congruence.
  - by apply _parse_instruction_raises in H.
  - by apply _parse_header_raises in H.
  - unfold _parse_filter in H.
    destruct (if contains "#" (strip l) then _ else _) as [m|] eqn:M.
    + destruct (contains "#" (strip l)); [|done].
      apply hfilter_match in M
        as (dl & marker & body & tail & _ & _ & _ & G1 & _ & G3).
      unfold _parse_hiding_filter in H. rewrite G1 in H. simpl in H.
      destruct G3 as [(tag & rules & _ & _ & G3 & G4 & G5)
                     |(sel & _ & Ns & G5)].
      * rewrite G5, G3, G4 in H.
        destruct (_tag_and_rules_to_selector _ _ _) as [s|e'] eqn:T;
          [done|]. injection H as ->.
        by apply _tag_and_rules_to_selector_raises in T as [T|T].
      * rewrite G5 in H. by destruct sel.
    + unfold _parse_blocking_filter in H.
      set (x := startswith "@@" (strip l)) in *.
      set (text' := if x then slice_from 2 (strip l) else strip l) in *.
      assert (Hpre : strip l = (if x then "@@" else "") +:+ text').
      { unfold text', x. destruct (startswith "@@" (strip l)) eqn:Hs;
          [|done]. by apply (startswith_app "@@") in Hs. }
      destruct (if contains "$" text' then _ else _) as [m|] eqn:S; [|done].
      destruct (contains "$" text'); [|done].
      apply bfilter_search in S as (o & tail & Et & Hg & Ht).
      rewrite Hg in H. simpl in H.
      destruct (_parse_filter_options text' o) as [d|e'] eqn:O;
        simpl in H; [done|].
      unfold _parse_filter_options in O.
      apply parse_options_loop_raises in O as (token & Hin & Htok).
      assert (tail = "") as ->.
      { apply (strip_no_trailing_space l
                 ((if x then "@@" else "")
                  +:+ slice_to (m_start m) text' +:+ "$" +:+ o) tail).
        - rewrite Hpre. rewrite Et at 1. by rewrite !str_app_assoc.
        - destruct Ht as [->| ->]; reflexivity. }
      rewrite str_app_nil_r in Et.
      exists ((if x then "@@" else "") +:+ slice_to (m_start m) text'),
        o, token.
      split_and!; [|done|done].
      rewrite Hpre. rewrite Et at 1. by rewrite !str_app_assoc.
Qed.

Lemma attribute_error_only_bare_option_witness :
  exists before option_list token,
    strip "@@||example.com$image,~domain" = before +:+ "$" +:+ option_list /\
    token ∈ split "," option_list /\
    token ∈ ["domain"; "sitekey"; "~domain"; "~sitekey"].
Proof.
  apply attribute_error_only_bare_option. vm_compute. reflexivity.
Defined.

(** ** Rendering an include instruction and parsing it again *)

Section IncludeReparse.

Lemma rmatch_Lit w :
  forall n s g k,
    rmatch false (Lit w) {| pos := n; rest := w +:+ s; caps := g |} k
    = k {| pos := n + String.length w; rest := s; caps := g |}.
Proof.
  induction w as [|c w IH]; intros n s g k.
  - rewrite str_app_nil_l. simpl. by rewrite Nat.add_0_r.
  - rewrite str_app_cons. cbn [Lit rmatch rest].
    unfold chr_eq. rewrite Ascii.eqb_refl. unfold advance. cbn [pos caps].
    rewrite IH. do 2 f_equal. simpl. lia.
Qed.

(** At the end of the text, or before a character that the body does not
    take, a loop goes on with what follows it. *)
Lemma star_loop_stop body g k fuel st :
  (forall k', body st k' = None) ->
  star_loop body g k fuel st = k st.
Proof.
  intros Hb. destruct fuel as [|fuel]; [done|]. simpl. rewrite Hb.
  destruct g; simpl; [done|]. by destruct (k st).
Qed.

Lemma isspace_not_newline c :
  isspace c = false -> Ascii.eqb c newline = false.
Proof.
  intros H. destruct (Ascii.eqb c newline) eqn:E; [|done].
  apply Ascii.eqb_eq in E as ->. by vm_compute in H.
Qed.

Lemma star_loop_S body g k fuel st :
  star_loop body g k (S fuel) st
  = let again :=
      body st (fun st1 =>
        if String.length (rest st1) <? String.length (rest st)
        then star_loop body g k fuel st1 else None) in
    if g then orelse again (k st) else orelse (k st) again.
Proof. reflexivity. Qed.

Lemma rmatch_Dot_cons icase n a s g k :
  rmatch icase Dot {| pos := n; rest := String a s; caps := g |} k
  = if Ascii.eqb a newline then None
    else k {| pos := S n; rest := s; caps := g |}.
Proof. reflexivity. Qed.

(** The greedy loop of [.+] runs to the end of a text without newline and
    comes back by one character when what follows it needs a character
    and takes the last one. *)
Lemma star_dot_greedy_last w :
  forall n g k fuel last res,
    contains newline w = false ->
    Ascii.eqb last newline = false ->
    String.length w + 1 < fuel ->
    k {| pos := n + String.length w + 1; rest := ""; caps := g |} = None ->
    k {| pos := n + String.length w; rest := String last ""; caps := g |}
    = Some res ->
    star_loop (rmatch false Dot) true k fuel
      {| pos := n; rest := w +:+ String last ""; caps := g |}
    = Some res.
Proof.
  induction w as [|a w IH]; intros n g k fuel last res Hw Hl Hf Hend Hk.
  - rewrite str_app_nil_l. destruct fuel as [|fuel]; [simpl in Hf; lia|].
    rewrite star_loop_S, rmatch_Dot_cons, Hl. cbv zeta. cbn [rest].
    change (String.length "" <? String.length (String last "")) with true.
    cbv iota. rewrite star_loop_stop by done.
    simpl in Hend, Hk. rewrite Nat.add_0_r in Hk.
    replace (n + 0 + 1) with (S n) in Hend by lia.
    by rewrite Hend, Hk.
  - rewrite str_app_cons. destruct fuel as [|fuel]; [simpl in Hf; lia|].
    simpl in Hw. apply orb_false_elim in Hw as [Ha Hw].
    rewrite star_loop_S, rmatch_Dot_cons, Ha. cbv zeta. cbn [rest].
    assert ((String.length (w +:+ String last "")
             <? String.length (String a (w +:+ String last ""))) = true)
      as -> by (apply Nat.ltb_lt; simpl; lia).
    rewrite (IH (S n) g k fuel last res); [done|done|done| | |].
    + simpl in Hf. lia.
    + simpl in Hend. by replace (S n + String.length w + 1)
        with (n + S (String.length w) + 1) by lia.
    + simpl in Hk. by replace (S n + String.length w)
        with (n + S (String.length w)) by lia.
Qed.

Lemma rstrip_app_nonspace x c :
  isspace c = false -> rstrip (x +:+ String c "") = x +:+ String c "".
Proof.
  intros Hc. induction x as [|a x IH].
  - rewrite str_app_nil_l. simpl. by rewrite Hc.
  - rewrite str_app_cons. simpl. rewrite IH.
    by destruct x.
Qed.

Lemma endswith_app p x : endswith p (x +:+ p) = true.
Proof.
  induction x as [|a x IH].
  - rewrite str_app_nil_l. destruct p; [done|].
    cbn [endswith]. by rewrite String.eqb_refl.
  - rewrite str_app_cons. cbn [endswith]. rewrite IH.
    by destruct (String.eqb p (String a (x +:+ p))).
Qed.

Lemma rmatch_Cat icase r1 r2 st k :
  rmatch icase (Cat r1 r2) st k
  = rmatch icase r1 st (fun st1 => rmatch icase r2 st1 k).
Proof. reflexivity. Qed.

Lemma rmatch_Star icase g r st k :
  rmatch icase (Star g r) st k
  = star_loop (rmatch icase r) g k (S (String.length (rest st))) st.
Proof. reflexivity. Qed.

Lemma rmatch_Group icase n r st k :
  rmatch icase (Group n r) st k
  = rmatch icase r st (fun st1 => k (capture n st st1)).
Proof. reflexivity. Qed.

Lemma rmatch_Class_cons icase p n a s g k :
  rmatch icase (Class p) {| pos := n; rest := String a s; caps := g |} k
  = if p a then k {| pos := S n; rest := s; caps := g |} else None.
Proof. reflexivity. Qed.

Lemma include_rematch c t :
  isspace c = false -> contains newline t = false ->
  re_match false INCLUDE_REGEXP
    ("%include " +:+ String c t +:+ "%")
  = Some {| m_start := 0; m_end := 11 + String.length t;
            m_groups := {[ 1 := String c t ]} |}.
Proof.
  intros Hc Ht.
  unfold re_match, match_at, INCLUDE_REGEXP, Plus.
  change ("%include " +:+ String c t +:+ "%")
    with ("%include" +:+ String " " (String c (t +:+ "%"))).
  rewrite rmatch_Cat, rmatch_Lit. cbv beta.
  change (0 + String.length "%include") with 8.
  rewrite !rmatch_Cat, rmatch_Class_cons.
  change (ws " ") with true. cbv iota beta.
  rewrite rmatch_Star, star_loop_stop;
    [|by intros k'; rewrite rmatch_Class_cons; unfold ws; rewrite Hc].
  rewrite rmatch_Cat, rmatch_Group, rmatch_Cat, rmatch_Dot_cons.
  rewrite (isspace_not_newline _ Hc).
  rewrite rmatch_Star. cbn [rest].
  rewrite (star_dot_greedy_last t 10 ∅ _ _ "%"
             {| pos := 11 + String.length t; rest := "";
                caps := {[ 1 := String c t ]} |}); [done|done|done| | |].
  - rewrite str_length_app. simpl. lia.
  - reflexivity.
  - cbv beta. unfold capture. cbn [pos rest caps rmatch].
    change (chr_eq false "%" "%") with true. cbv iota.
    unfold advance. cbn [pos rest caps].
    assert (consumed
              {| pos := 9; rest := String c (t +:+ "%"); caps := ∅ |}
              {| pos := 10 + String.length t; rest := "%"; caps := ∅ |}
            = String c t) as ->; [|done].
    apply consumed_app. simpl. by rewrite str_app_cons.
Qed.

End IncludeReparse.

(** X18. Rendering an [Include] record and parsing the text gives the
    record back, when the target has no newline and starts with a
    character that is not whitespace. *)
Theorem include_reparse (c : ascii) (t : string) :
  isspace c = false -> contains newline t = false ->
  parse_line (to_string (Include (String c t))) = Ok (Include (String c t)).
Proof.
  intros Hc Ht. simpl to_string.
  assert (Hs : strip ("%include " +:+ String c t +:+ "%")
               = "%include " +:+ String c t +:+ "%").
  { unfold strip.
    change ("%include " +:+ String c t +:+ "%")
      with (String "%" ("include " +:+ String c t +:+ "%")).
    cbn [lstrip]. change (isspace "%") with false. cbv iota.
    change (String "%" ("include " +:+ String c t +:+ "%"))
      with (("%include " +:+ String c t) +:+ "%").
    by apply rstrip_app_nonspace. }
  unfold parse_line. rewrite Hs.
  rewrite bool_decide_eq_false_2 by done.
  change (startswith "!" ("%include " +:+ String c t +:+ "%")) with false.
  assert (startswith "%" ("%include " +:+ String c t +:+ "%") = true) as ->.
  { change ("%include " +:+ String c t +:+ "%")
      with (String "%" ("include " +:+ String c t +:+ "%")).
    rewrite startswith_cons. simpl. by destruct (_ +:+ _). }
  assert (endswith "%" ("%include " +:+ String c t +:+ "%") = true) as ->.
  { change ("%include " +:+ String c t +:+ "%")
      with (("%include " +:+ String c t) +:+ "%").
    apply endswith_app. }
  cbv iota. simpl andb. cbv iota.
  unfold _parse_instruction. rewrite include_rematch by done.
  unfold group. simpl. rewrite lookup_singleton_eq. simpl.
  by rewrite bool_decide_eq_true_2.
Qed.

Lemma include_reparse_witness :
  parse_line (to_string (Include "foo:bar/baz.txt"))
  = Ok (Include "foo:bar/baz.txt").
Proof. apply include_reparse; vm_compute; reflexivity. Defined.

(** ** Plain patterns and domains *)

Section Plain.

Lemma contains_slice_from a k :
  forall s, contains a s = false -> contains a (slice_from k s) = false.
Proof.
  induction k as [|k IH]; intros [|b s]; try done.
  simpl. intros [_ H]%orb_false_elim. by apply IH.
Qed.

End Plain.

(** X19. A line without [#] and without [$] that is not empty, not a
    comment, not an instruction and not a header always parses, to a
    blocking filter without options whose pattern is the trimmed line
    without the exception prefix [@@]. *)
Theorem plain_pattern_parses (l : string) :
  strip l <> "" ->
  startswith "!" (strip l) = false ->
  startswith "%" (strip l) && endswith "%" (strip l) = false ->
  startswith "[" (strip l) && endswith "]" (strip l) = false ->
  contains "#" (strip l) = false ->
  contains "$" (strip l) = false ->
  parse_line l
  = Ok (BlockingFilter (strip l) (startswith "@@" (strip l)) ∅
          (if startswith "@@" (strip l) then slice_from 2 (strip l)
           else strip l)).
Proof.
  intros Hne Hc Hi Hh Hs Hd. unfold parse_line.
  rewrite bool_decide_eq_false_2 by done. rewrite Hc, Hi, Hh.
  unfold _parse_filter. rewrite Hs. unfold _parse_blocking_filter.
  assert (contains "$"
            (if startswith "@@" (strip l) then slice_from 2 (strip l)
             else strip l) = false) as ->.
  { destruct (startswith "@@" (strip l)); [|done].
    by apply contains_slice_from. }
  simpl. by rewrite bool_decide_eq_true_2.
Qed.

Lemma plain_pattern_parses_witness :
  parse_line " @@||example.com/good.gif "
  = Ok (BlockingFilter (strip " @@||example.com/good.gif ")
          (startswith "@@" (strip " @@||example.com/good.gif ")) ∅
          (if startswith "@@" (strip " @@||example.com/good.gif ")
           then slice_from 2 (strip " @@||example.com/good.gif ")
           else strip " @@||example.com/good.gif ")).
Proof.
  apply plain_pattern_parses; vm_compute; congruence.
Defined.

(** X20. The domains of a [HidingFilter] record are never empty texts and
    hold no comma. *)
Theorem hiding_filter_domains
    (l expression selector : string) (is_exception : bool)
    (domains : list string) :
  parse_line l = Ok (HidingFilter expression is_exception selector domains)
  ->
  Forall (fun d => d <> "" /\ contains "," d = false) domains.
Proof.
  intros H. apply parse_line_filter in H; [|done].
  apply _parse_filter_hiding in H as (m & _ & H).
  unfold _parse_hiding_filter in H. inv_bind H. inv_bind H.
  injection H as _ _ _ <-.
  apply Forall_forall. intros d [Hd Hin]%list_elem_of_filter.
  split; [by apply truthy_not_nil | by apply split_pieces in Hin].
Qed.

Lemma hiding_filter_domains_witness :
  Forall (fun d => d <> "" /\ contains "," d = false) ["abc.com"; "cdf.com"].
Proof.
  apply (hiding_filter_domains ",abc.com,,cdf.com,##div#ad1"
           ",abc.com,,cdf.com,##div#ad1" "div#ad1" false).
  vm_compute. reflexivity.
Defined.
